(** * cow::vector — a copy-on-write vector with short synchronisation

    A shallow embedding of [cow.h].  The container owns a
    [std::shared_ptr<std::vector<T>>]; snapshot iterators, read-only views
    and copies of the container share that pointer.  Whether a mutation is
    done in place or on a fresh copy is decided by [use_count() == 1], so
    the model keeps an explicit heap of reference-counted storages and
    accounts for every copy and every destruction of a shared pointer.

    Every method body runs under the container's lock; the model is the
    sequential behaviour of one call.  C++ exceptions (a failing
    allocation, a throwing element constructor, a throwing predicate) are
    modelled by a fault budget threaded through a state-and-error monad. *)

From stdpp Require Import base option list gmap.

Module cow.

(** ** Shared pointers *)

(** Addresses of heap-allocated storages; [TStoragePtr] is a nullable
    [std::shared_ptr<TStorage>] ([None] is the null pointer). *)
Abbreviation loc := positive (only parsing).
Abbreviation TStoragePtr := (option positive) (only parsing).

Inductive exception : Set :=
  | bad_alloc
  | construction_failure
  | predicate_failure
  | out_of_range.

(** What a call does: return a value, leave by an exception, or run into
    undefined behaviour (a null or dangling dereference). *)
Inductive outcome (A : Type) : Type :=
  | Returned (a : A)
  | Thrown (e : exception)
  | Undefined.
Arguments Returned {A} a.
Arguments Thrown {A} e.
Arguments Undefined {A}.

(** [std::vector<T>::const_iterator]: a pointer into the buffer of one
    storage, as the storage it points into and an offset from the
    beginning.  A value-initialised iterator points into no storage.
    Two cursors of one storage are equal when their offsets are.
    Cursors of different storages are outside the domain of [==]; they
    are taken to differ here, and no property below rests on comparing
    them: a storage that never held an element may have no buffer, and
    its [begin()] then equals that of another such storage. *)
Record const_iterator : Set :=
  ConstIterator { base : option positive; offset : Z }.

#[global] Instance const_iterator_eq_dec : EqDecision const_iterator.
Proof. solve_decision. Defined.

Definition singular : const_iterator := ConstIterator None 0.

Section vector.
Context {T : Type}.

(** [typedef std::vector<T, TAlloc> TStorage] *)
Definition TStorage : Type := list T.

(** What [new TStorage()] wrapped in a [shared_ptr] allocates: the vector
    and the control block with its reference count. *)
Record shared : Type := Shared { object : TStorage; use_count : nat }.

(** The state a method of [vector] sees: its own field [_storage], the
    heap of shared storages, and the class static
    [readonly_vector::_empty_storage]. The mutex [_lock] guards each method
    body as a whole and has no sequential content. *)
Record state : Type := State {
  _storage : option positive;
  heap : gmap positive shared;
  _empty_storage : option positive
}.

Definition set_storage (p : TStoragePtr) (s : state) : state :=
  State p (heap s) (_empty_storage s).
Definition set_heap (h : gmap positive shared) (s : state) : state :=
  State (_storage s) h (_empty_storage s).

(** ** The monad

    A computation takes the state and a fault budget and yields an
    outcome, the state it leaves and the remaining budget.  Budget [None]
    injects no failure; [Some n] lets [n] fallible events succeed and makes
    the next one throw.  The code has no [catch], so the first failure is
    the only one a call sees. *)
Definition M (A : Type) : Type :=
  state → option nat → outcome A * state * option nat.

Definition ret {A} (a : A) : M A := λ s b, (Returned a, s, b).

Definition bind {A B} (m : M A) (f : A → M B) : M B :=
  λ s b,
    match m s b with
    | (Returned a, s', b') => f a s' b'
    | (Thrown e, s', b') => (Thrown e, s', b')
    | (Undefined, s', b') => (Undefined, s', b')
    end.

Definition throw {A} (e : exception) : M A := λ s b, (Thrown e, s, b).
Definition undefined {A} : M A := λ s b, (Undefined, s, b).

Definition fallible (e : exception) : M unit :=
  λ s b,
    match b with
    | None => (Returned (), s, None)
    | Some 0 => (Thrown e, s, Some 0)
    | Some (S n) => (Returned (), s, Some n)
    end.

Definition field {A} (f : state → A) : M A := λ s b, (Returned (f s), s, b).

End vector.

Declare Scope cow_scope.
Delimit Scope cow_scope with cow.
Notation "x ← y ; z" := (bind y (λ x : _, z))
  (at level 20, y at level 100, z at level 200, only parsing) : cow_scope.
Notation "x ;; z" := (bind x (λ _, z))
  (at level 100, z at level 200, only parsing, right associativity) : cow_scope.

Section vector_ops.
Context {T : Type}.
Local Open Scope cow_scope.
Local Abbreviation M := (@M T).
Local Abbreviation state := (@state T).

(** *** shared_ptr bookkeeping *)

(** Copying a shared pointer: one more holder. *)
Definition acquire_heap (p : TStoragePtr) (h : gmap positive (@shared T))
  : gmap positive shared :=
  match p with
  | None => h
  | Some l =>
      match h !! l with
      | Some c => <[l := Shared (object c) (S (use_count c))]> h
      | None => h
      end
  end.

(** Destroying or resetting a shared pointer: one holder fewer; the last
    holder frees the storage. *)
Definition release_heap (p : TStoragePtr) (h : gmap positive (@shared T))
  : gmap positive shared :=
  match p with
  | None => h
  | Some l =>
      match h !! l with
      | Some c =>
          if decide (use_count c ≤ 1) then delete l h
          else <[l := Shared (object c) (use_count c - 1)]> h
      | None => h
      end
  end.

Definition acquire (p : TStoragePtr) : M unit :=
  λ s b, (Returned (), set_heap (acquire_heap p (heap s)) s, b).

(** A local [TStoragePtr] initialised with [p]: its destructor runs when
    the scope is left, by return or by exception. *)
Definition scoped {A} (p : TStoragePtr) (body : M A) : M A :=
  λ s b,
    match body s b with
    | (r, s', b') => (r, set_heap (release_heap p (heap s')) s', b')
    end.

(** [p.use_count()]; zero for the null pointer. *)
Definition get_use_count (p : TStoragePtr) : M nat :=
  match p with
  | None => ret 0
  | Some l =>
      s ← field heap;
      match s !! l with
      | Some c => ret (use_count c)
      | None => undefined
      end
  end.

(** [*p] *)
Definition load (p : TStoragePtr) : M TStorage :=
  match p with
  | None => undefined
  | Some l =>
      h ← field heap;
      match h !! l with
      | Some c => ret (object c)
      | None => undefined
      end
  end.

(** Overwrite [*p] in place; the reference count is untouched. *)
Definition store (p : TStoragePtr) (v : TStorage) : M unit :=
  match p with
  | None => undefined
  | Some l =>
      λ s b,
        match heap s !! l with
        | Some c => (Returned (), set_heap (<[l := Shared v (use_count c)]> (heap s)) s, b)
        | None => (Undefined, s, b)
        end
  end.

(** [TStoragePtr(new TStorage())] *)
Definition new_TStorage : M TStoragePtr :=
  fallible bad_alloc;;
  λ s b,
    let l := fresh (dom (heap s)) in
    (Returned (Some l), set_heap (<[l := Shared [] 1]> (heap s)) s, b).

(** [_storage = p] *)
Definition assign_storage (p : TStoragePtr) : M unit :=
  λ s b,
    (Returned (),
     State p (release_heap (_storage s) (acquire_heap p (heap s))) (_empty_storage s),
     b).

(** [_storage.reset()] *)
Definition reset_storage : M unit :=
  λ s b,
    (Returned (),
     State None (release_heap (_storage s) (heap s)) (_empty_storage s),
     b).

(** *** std::vector members, called through a shared pointer

    A member that allocates or copy-constructs an element is one fallible
    event; when it throws, the vector it was called on is as before the
    call.  [erase] moves the elements behind the erased one and is taken
    not to throw.  The capacity set by [reserve] is not observable through
    the container and is not part of the state. *)

Definition std_size (p : TStoragePtr) : M nat :=
  v ← load p; ret (length v).

Definition std_empty (p : TStoragePtr) : M bool :=
  v ← load p; ret (match v with [] => true | _ => false end).

Definition std_reserve (p : TStoragePtr) (n : nat) : M unit :=
  _ ← load p; fallible bad_alloc.

Definition std_push_back (p : TStoragePtr) (t : T) : M unit :=
  v ← load p;
  fallible construction_failure;;
  store p (v ++ [t]).

(** [p->insert(p->begin(), t)] *)
Definition std_insert_begin (p : TStoragePtr) (t : T) : M unit :=
  v ← load p;
  fallible construction_failure;;
  store p (t :: v).

(** [p->insert(p->end(), first, last)], the range given by its elements:
    one copy construction per element. *)
Fixpoint std_insert_end (p : TStoragePtr) (range : list T) : M unit :=
  match range with
  | [] => ret ()
  | x :: range' => std_push_back p x;; std_insert_end p range'
  end.

(** [p->erase(it)], [it] at index [i] *)
Definition std_erase (p : TStoragePtr) (i : nat) : M unit :=
  v ← load p;
  if decide (i < length v) then store p (delete i v) else undefined.

(** [*it], [it] at index [i] of [*p] *)
Definition std_deref (p : TStoragePtr) (i : nat) : M T :=
  v ← load p;
  match v !! i with
  | Some x => ret x
  | None => undefined
  end.

(** [p->at(pos)] *)
Definition std_at (p : TStoragePtr) (pos : nat) : M T :=
  v ← load p;
  match v !! pos with
  | Some x => ret x
  | None => throw out_of_range
  end.

(** A call of the user's predicate, which may throw. *)
Definition call (predicate : T → bool) (x : T) : M bool :=
  fallible predicate_failure;; ret (predicate x).

(** ** The container

    Members keep their names but for [exists] and [end], which are
    keywords here ([exists_], [end_]); the members of the nested classes
    [iterator] and [readonly_vector] carry the class name or, for the
    iterator's operators, the name of the operator. *)

(** [void clear()] *)
Definition clear : M unit := reset_storage.

(** [void push_front(const T& t)] *)
Definition push_front (t : T) : M unit :=
  storage ← field _storage;
  n ← get_use_count storage;
  if decide (n = 1) then
    std_insert_begin storage t
  else
    newStorage ← new_TStorage;
    scoped newStorage (
      (match storage with
       | None =>
           std_reserve newStorage 4;;
           std_push_back newStorage t
       | Some _ =>
           sz ← std_size storage;
           std_reserve newStorage (sz + 1 + 4);;
           std_push_back newStorage t;;
           old ← load storage;
           std_insert_end newStorage old
       end);;
      assign_storage newStorage).

(** [void push_back(const T& t)] *)
Definition push_back (t : T) : M unit :=
  storage ← field _storage;
  n ← get_use_count storage;
  if decide (n = 1) then
    std_push_back storage t
  else
    newStorage ← new_TStorage;
    scoped newStorage (
      (match storage with
       | None => std_reserve newStorage 4
       | Some _ =>
           sz ← std_size storage;
           std_reserve newStorage (sz + 1 + 4);;
           old ← load storage;
           std_insert_end newStorage old
       end);;
      std_push_back newStorage t;;
      assign_storage newStorage).

(** [void emplace_back(Args&&... args)]: the element is [T(args...)],
    passed here as the value it constructs. *)
Definition emplace_back (args : T) : M unit :=
  storage ← field _storage;
  n ← get_use_count storage;
  if decide (n = 1) then
    std_push_back storage args
  else
    newStorage ← new_TStorage;
    scoped newStorage (
      (match storage with
       | None => std_reserve newStorage 4
       | Some _ =>
           sz ← std_size storage;
           std_reserve newStorage (sz + 1 + 4);;
           old ← load storage;
           std_insert_end newStorage old
       end);;
      std_push_back newStorage args;;
      assign_storage newStorage).

(** The loop of the sole-holder branch of [remove]:
    [for (it = begin(); it != end(); ) ...].  [it] is the index of the
    cursor and [remaining] is [end() - it], which drops by one in either
    branch of the body: [++it] moves the cursor, [erase] moves the end.
    The loop is entered with [remaining = size()] and [it = 0]. *)
Fixpoint remove_in_place (predicate : T → bool) (storage : TStoragePtr)
    (remaining it count : nat) : M nat :=
  match remaining with
  | 0 => ret count
  | S remaining' =>
      x ← std_deref storage it;
      b ← call predicate x;
      if negb b then
        remove_in_place predicate storage remaining' (S it) count
      else
        std_erase storage it;;
        remove_in_place predicate storage remaining' it (S count)
  end.

(** The loop of the shared branch of [remove]:
    [for (auto const& elem : *_storage) ...]. *)
Fixpoint remove_copying (predicate : T → bool) (newStorage : TStoragePtr)
    (elems : list T) (count : nat) : M nat :=
  match elems with
  | [] => ret count
  | elem :: elems' =>
      b ← call predicate elem;
      if b then
        remove_copying predicate newStorage elems' (S count)
      else
        std_push_back newStorage elem;;
        remove_copying predicate newStorage elems' count
  end.

(** [std::size_t remove(_Pred predicate)] *)
Definition remove (predicate : T → bool) : M nat :=
  storage ← field _storage;
  match storage with
  | None => ret 0
  | Some _ =>
      e ← std_empty storage;
      if e then ret 0
      else
        n ← get_use_count storage;
        if decide (n = 1) then
          sz ← std_size storage;
          remove_in_place predicate storage sz 0 0
        else
          newStorage ← new_TStorage;
          scoped newStorage (
            sz ← std_size storage;
            std_reserve newStorage sz;;
            elems ← load storage;
            count ← remove_copying predicate newStorage elems 0;
            sz ← std_size storage;
            new_sz ← std_size newStorage;
            if decide (sz = new_sz) then ret count
            else
              new_empty ← std_empty newStorage;
              (if new_empty then reset_storage
               else assign_storage newStorage);;
              ret count)
  end.

(** [bool removeAt(typename TStorage::iterator it)], [it] at index [it] *)
Definition removeAt (it : nat) : M bool :=
  storage ← field _storage;
  sz ← std_size storage;
  if decide (it = sz) then ret false
  else if decide (sz = 1) then
    reset_storage;; ret true
  else
    n ← get_use_count storage;
    if decide (n = 1) then
      std_erase storage it;; ret true
    else
      newStorage ← new_TStorage;
      scoped newStorage (
        std_reserve newStorage sz;;
        old ← load storage;
        (if decide (it ≠ 0) then std_insert_end newStorage (take it old)
         else ret ());;
        (if decide (S it ≠ sz) then std_insert_end newStorage (drop (S it) old)
         else ret ());;
        assign_storage newStorage);;
      ret true.

(** [std::find_if(first, last, predicate)] over the elements [range],
    [first] at index [first]: the index of the first match, else of
    [last]. *)
Fixpoint find_if (predicate : T → bool) (range : list T) (first : nat) : M nat :=
  match range with
  | [] => ret first
  | x :: range' =>
      b ← call predicate x;
      if b then ret first else find_if predicate range' (S first)
  end.

(** [bool removeFirst(_Pred predicate)] *)
Definition removeFirst (predicate : T → bool) : M bool :=
  storage ← field _storage;
  match storage with
  | None => ret false
  | Some _ =>
      e ← std_empty storage;
      if e then ret false
      else
        v ← load storage;
        it ← find_if predicate v 0;
        removeAt it
  end.

(** [bool removeLast(_Pred predicate)]: [rit] counts from [rbegin()];
    [rit.base()] is at index [size - rit]. *)
Definition removeLast (predicate : T → bool) : M bool :=
  storage ← field _storage;
  match storage with
  | None => ret false
  | Some _ =>
      e ← std_empty storage;
      if e then ret false
      else
        v ← load storage;
        rit ← find_if predicate (reverse v) 0;
        if decide (rit = length v) then ret false
        else removeAt (length v - rit - 1)
  end.

(** [TStoragePtr copy() const] *)
Definition copy : M TStoragePtr :=
  storage ← field _storage;
  acquire storage;;
  ret storage.

(** The scans of [exists], [find_first] and [find_last]. *)
Fixpoint scan_exists (predicate : T → bool) (elems : list T) : M bool :=
  match elems with
  | [] => ret false
  | elem :: elems' =>
      b ← call predicate elem;
      if b then ret true else scan_exists predicate elems'
  end.

Fixpoint scan_find (predicate : T → bool) (elems : list T) (default_value : T) : M T :=
  match elems with
  | [] => ret default_value
  | elem :: elems' =>
      b ← call predicate elem;
      if b then ret elem else scan_find predicate elems' default_value
  end.

(** [exists] after [storage_copy = copy()].  The guard reads
    [_storage->empty()], the live field. *)
Definition exists_captured (predicate : T → bool) (storage_copy : TStoragePtr) : M bool :=
  match storage_copy with
  | None => ret false
  | Some _ =>
      live ← field _storage;
      e ← std_empty live;
      if e then ret false
      else
        elems ← load storage_copy;
        scan_exists predicate elems
  end.

(** [bool exists(_Pred predicate) const] *)
Definition exists_ (predicate : T → bool) : M bool :=
  storage_copy ← copy;
  scoped storage_copy (exists_captured predicate storage_copy).

Definition find_first_captured (predicate : T → bool) (default_value : T)
    (storage_copy : TStoragePtr) : M T :=
  match storage_copy with
  | None => ret default_value
  | Some _ =>
      live ← field _storage;
      e ← std_empty live;
      if e then ret default_value
      else
        elems ← load storage_copy;
        scan_find predicate elems default_value
  end.

(** [T find_first(_Pred predicate, _DefaultValue default_value) const] *)
Definition find_first (predicate : T → bool) (default_value : T) : M T :=
  storage_copy ← copy;
  scoped storage_copy (find_first_captured predicate default_value storage_copy).

Definition find_last_captured (predicate : T → bool) (default_value : T)
    (storage_copy : TStoragePtr) : M T :=
  match storage_copy with
  | None => ret default_value
  | Some _ =>
      live ← field _storage;
      e ← std_empty live;
      if e then ret default_value
      else
        elems ← load storage_copy;
        scan_find predicate (reverse elems) default_value
  end.

(** [T find_last(_Pred predicate, _DefaultValue default_value) const] *)
Definition find_last (predicate : T → bool) (default_value : T) : M T :=
  storage_copy ← copy;
  scoped storage_copy (find_last_captured predicate default_value storage_copy).

(** [vector(const TVector& array)]: the new container's [_storage]. *)
Definition copy_construct : M TStoragePtr := copy.

(** ** The snapshot iterator *)

Record iterator : Set := Iterator {
  iterator_storage : option positive;
  _it : const_iterator;
  _end : const_iterator
}.

(** [iterator() = default] *)
Definition iterator_default : iterator := Iterator None singular singular.

Definition next (c : const_iterator) : const_iterator :=
  ConstIterator (base c) (offset c + 1).
Definition prev (c : const_iterator) : const_iterator :=
  ConstIterator (base c) (offset c - 1).

(** [operator*]: [_it.operator*()] *)
Definition operator_deref (this : iterator) : M T :=
  if decide (0 ≤ offset (_it this))%Z
  then std_deref (base (_it this)) (Z.to_nat (offset (_it this)))
  else undefined.

(** [iterator& operator++()]: the iterator after the call. *)
Definition operator_pre_inc (this : iterator) : iterator :=
  Iterator (iterator_storage this) (next (_it this)) (_end this).

(** [iterator& operator--()] *)
Definition operator_pre_dec (this : iterator) : iterator :=
  Iterator (iterator_storage this) (prev (_it this)) (_end this).

(** [iterator operator++(int)]: [_it++; return *this;].  Yields the
    iterator after the call and the value returned, a copy that holds the
    storage once more. *)
Definition operator_post_inc (this : iterator) : M (iterator * iterator) :=
  let this' := Iterator (iterator_storage this) (next (_it this)) (_end this) in
  acquire (iterator_storage this');;
  ret (this', this').

(** [iterator operator--(int)]: [_it--; return *this;] *)
Definition operator_post_dec (this : iterator) : M (iterator * iterator) :=
  let this' := Iterator (iterator_storage this) (prev (_it this)) (_end this) in
  acquire (iterator_storage this');;
  ret (this', this').

(** [bool operator==(iterator const & right) const] *)
Definition operator_eq (this right : iterator) : bool :=
  match iterator_storage this with
  | None =>
      match iterator_storage right with
      | None => true
      | Some _ => bool_decide (_end right = _it right)
      end
  | Some _ =>
      match iterator_storage right with
      | None => bool_decide (_it this = _end this)
      | Some _ => bool_decide (_it this = _it right)
      end
  end.

(** [bool operator!=(iterator const & right) const] *)
Definition operator_ne (this right : iterator) : bool :=
  negb (operator_eq this right).

(** [iterator begin() const] *)
Definition begin : M iterator :=
  storage ← field _storage;
  match storage with
  | Some l =>
      sz ← std_size storage;
      acquire storage;;
      ret (Iterator storage (ConstIterator (Some l) 0)
             (ConstIterator (Some l) (Z.of_nat sz)))
  | None => ret iterator_default
  end.

(** [iterator end() const] *)
Definition end_ : M iterator := ret iterator_default.

(** ** The read-only view *)

Record readonly_vector : Set := Readonly { readonly_storage : option positive }.

(** [void assign(const TStoragePtr & storage)], as run by the
    constructors: [_storage = !storage ? _empty_storage : storage]. *)
Definition readonly_vector_assign (storage : TStoragePtr) : M readonly_vector :=
  empty_storage ← field _empty_storage;
  let chosen := match storage with None => empty_storage | Some _ => storage end in
  acquire chosen;;
  ret (Readonly chosen).

(** [readonly_vector read_only_copy() const] *)
Definition read_only_copy : M readonly_vector :=
  storage ← field _storage;
  readonly_vector_assign storage.

Definition readonly_vector_empty (this : readonly_vector) : M bool :=
  std_empty (readonly_storage this).

Definition readonly_vector_size (this : readonly_vector) : M nat :=
  std_size (readonly_storage this).

Definition readonly_vector_at (this : readonly_vector) (pos : nat) : M T :=
  std_at (readonly_storage this) pos.

(** [operator[]]: unchecked. *)
Definition readonly_vector_index (this : readonly_vector) (pos : nat) : M T :=
  std_deref (readonly_storage this) pos.

End vector_ops.

Section vector_more.
Context {T : Type}.
Local Open Scope cow_scope.
Local Abbreviation M := (@M T).
Local Abbreviation state := (@state T).

(** ** The rest of the container *)

(** A call [m] made on another container, given by its field [_storage]:
    the value the call returns and that container's field after it.  The
    heap and the class static are shared with the caller. *)
Definition call_on {A} (other : TStoragePtr) (m : M A) : M (A * option positive) :=
  λ s b,
    match m (set_storage other s) b with
    | (Returned a, s', b') =>
        (Returned (a, _storage s'), set_storage (_storage s) s', b')
    | (Thrown e, s', b') => (Thrown e, set_storage (_storage s) s', b')
    | (Undefined, s', b') => (Undefined, set_storage (_storage s) s', b')
    end.

(** [TVector& operator=(const TVector& _Right)]:
    [storage_copy = _Right.copy()], then [_storage = storage_copy] under
    the own lock. *)
Definition operator_assign (_Right : TStoragePtr) : M unit :=
  copied ← call_on _Right copy;
  let storage_copy := copied.1 in
  scoped storage_copy (assign_storage storage_copy).

(** [TStorage& data()]: the reference returned is given by the handle it
    is taken through.  [_storage = TStoragePtr(new TStorage())] assigns
    from a temporary. *)
Definition data : M TStoragePtr :=
  storage ← field _storage;
  match storage with
  | None =>
      newStorage ← new_TStorage;
      scoped newStorage (assign_storage newStorage);;
      field _storage
  | Some _ => ret storage
  end.

(** [p->front()] and [p->back()] *)
Definition std_front (p : TStoragePtr) : M T :=
  v ← load p;
  match v with
  | x :: _ => ret x
  | [] => undefined
  end.

Definition std_back (p : TStoragePtr) : M T :=
  v ← load p;
  match last v with
  | Some x => ret x
  | None => undefined
  end.

Definition readonly_vector_front (this : readonly_vector) : M T :=
  std_front (readonly_storage this).

Definition readonly_vector_back (this : readonly_vector) : M T :=
  std_back (readonly_storage this).


(** [for (auto v : c) ...], as the compiler expands it:
    [it = c.begin(); last = c.end(); for (; it != last; ++it) { v = *it; ... }],
    collecting the elements visited.  [None] when [fuel] runs out. *)
Fixpoint range_for_loop (fuel : nat) (it last : iterator) : M (option (list T)) :=
  match fuel with
  | 0 => ret None
  | S fuel' =>
      if operator_ne it last then
        x ← operator_deref it;
        rest ← range_for_loop fuel' (operator_pre_inc it) last;
        ret (cons x <$> rest)
      else ret (Some [])
  end.

Definition range_for (fuel : nat) : M (option (list T)) :=
  it ← begin;
  last ← end_;
  scoped (iterator_storage it) (range_for_loop fuel it last).

End vector_more.

(** * Specification *)

Section specification.
Context {T : Type}.
Local Open Scope cow_scope.
Local Abbreviation M := (@M T).
Local Abbreviation state := (@state T).
Implicit Types (s : state) (h : gmap positive (@shared T)) (v : list T).

(** ** States *)

(** The element sequence of the container. *)
Definition contents s : list T :=
  match _storage s with
  | None => []
  | Some l => match heap s !! l with Some c => object c | None => [] end
  end.

(** The handle is null or points to a live storage. *)
Definition storage_ok s : Prop :=
  ∀ l, _storage s = Some l → ∃ c, heap s !! l = Some c ∧ 1 ≤ use_count c.

(** Storage [l] holds [v] and has a holder besides the container: a
    snapshot iterator, a read-only view, a sibling container, the
    temporary of a running [exists], or the class static. *)
Definition held_elsewhere s (l : positive) v : Prop :=
  ∃ n, heap s !! l = Some (Shared v n) ∧
       if decide (_storage s = Some l) then 2 ≤ n else 1 ≤ n.

(** Well-formed states: the handle is valid and [_empty_storage] is the
    empty storage made at static initialisation. *)
Definition wf s : Prop :=
  storage_ok s ∧ ∃ l0, _empty_storage s = Some l0 ∧ held_elsewhere s l0 [].

(** [_storage.use_count() == 1] *)
Definition sole_holder s : Prop :=
  ∃ l v, _storage s = Some l ∧ heap s !! l = Some (Shared v 1).

(** No snapshot, view or sibling container holds the container's storage. *)
Definition unshared s : Prop :=
  ∀ l c, _storage s = Some l → heap s !! l = Some c → use_count c = 1.

(** The program after static initialisation, with one default-constructed
    container: [_empty_storage] is [std::make_shared<TStorage>()]. *)
Definition initial_state : state :=
  State None {[ 1%positive := Shared [] 1 ]} (Some 1%positive).

(** ** Calls *)

(** [spec m s Q E]: run from [s] with any fault budget, [m] either
    returns a value and a state satisfying [Q], or throws and leaves a
    state satisfying [E]; it never runs into undefined behaviour, and it
    throws only when a fault is injected. *)
Definition spec {A} (m : M A) (s : state) (Q : A → state → Prop) (E : state → Prop) : Prop :=
  ∀ b,
    match m s b with
    | (Returned a, s', b') => Q a s' ∧ (b = None → b' = None)
    | (Thrown _, s', _) => E s' ∧ b ≠ None
    | (Undefined, _, _) => False
    end.

(** What a call returns when no fault is injected. *)
Definition observe {A} (m : M A) (s : state) : outcome A := (m s None).1.1.

(** What a mutating call may do to the state: nothing; overwrite the
    storage in place, which it does only as the sole holder; give up the
    storage for a fresh one of which it is the sole holder; or give up the
    storage and become null. *)
Inductive cow_step (s s' : state) : Prop :=
  | step_unchanged :
      s' = s → cow_step s s'
  | step_in_place l v v' :
      _storage s = Some l → heap s !! l = Some (Shared v 1) →
      s' = State (Some l) (<[l := Shared v' 1]> (heap s)) (_empty_storage s) →
      cow_step s s'
  | step_replaced l v' :
      heap s !! l = None →
      s' = State (Some l) (<[l := Shared v' 1]> (release_heap (_storage s) (heap s)))
             (_empty_storage s) →
      cow_step s s'
  | step_reset :
      s' = State None (release_heap (_storage s) (heap s)) (_empty_storage s) →
      cow_step s s'.

(** What a mutating call that throws leaves behind. *)
Definition failure_post s : state → Prop :=
  λ s', cow_step s s' ∧ (¬ sole_holder s → s' = s).

(** ** Reference sequences *)

(** The index [std::find_if] stops at. *)
Fixpoint first_match (predicate : T → bool) (range : list T) : nat :=
  match range with
  | [] => 0
  | x :: range' => if predicate x then 0 else S (first_match predicate range')
  end.

(** Reference: drop the first element that satisfies the predicate. *)
Fixpoint remove_first_match (predicate : T → bool) (v : list T) : list T :=
  match v with
  | [] => []
  | x :: v' => if predicate x then v' else x :: remove_first_match predicate v'
  end.

(** Reference: drop the last element that satisfies the predicate. *)
Definition remove_last_match (predicate : T → bool) (v : list T) : list T :=
  reverse (remove_first_match predicate (reverse v)).

(** Reference: the last element that satisfies the predicate. *)
Fixpoint find_last_match (predicate : T → bool) (v : list T) : option T :=
  match v with
  | [] => None
  | x :: v' =>
      match find_last_match predicate v' with
      | Some y => Some y
      | None => if predicate x then Some x else None
      end
  end.

(** The mutating calls of the container. *)
Inductive operation : Type :=
  | op_push_front (t : T)
  | op_push_back (t : T)
  | op_emplace_back (args : T)
  | op_remove (predicate : T → bool)
  | op_removeFirst (predicate : T → bool)
  | op_removeLast (predicate : T → bool)
  | op_clear.

Definition run (o : operation) : M unit :=
  match o with
  | op_push_front t => push_front t
  | op_push_back t => push_back t
  | op_emplace_back args => emplace_back args
  | op_remove predicate => _ ← remove predicate; ret ()
  | op_removeFirst predicate => _ ← removeFirst predicate; ret ()
  | op_removeLast predicate => _ ← removeLast predicate; ret ()
  | op_clear => clear
  end.

(** Reference: the same operation on a plain sequence: prepend, append,
    filter out the matching elements, remove the first or the last match,
    empty. *)
Definition reference (o : operation) (v : list T) : list T :=
  match o with
  | op_push_front t => t :: v
  | op_push_back t => v ++ [t]
  | op_emplace_back args => v ++ [args]
  | op_remove predicate => List.filter (λ x, negb (predicate x)) v
  | op_removeFirst predicate => remove_first_match predicate v
  | op_removeLast predicate => remove_last_match predicate v
  | op_clear => []
  end.


(** Calls made one after the other, none of which fails. *)
Fixpoint run_seq (ops : list operation) (s : state) : option state :=
  match ops with
  | [] => Some s
  | o :: ops' =>
      match run o s None with
      | (Returned _, s', _) => run_seq ops' s'
      | _ => None
      end
  end.

(** [k] applications of [operator++()]. *)
Fixpoint advance (k : nat) (it : iterator) : iterator :=
  match k with
  | 0 => it
  | S k' => operator_pre_inc (advance k' it)
  end.

End specification.

(** ** Further specification vocabulary *)

Section more_spec.
Context {T : Type}.
Local Abbreviation state := (@state T).
Implicit Types (s : state) (h : gmap positive (@shared T)) (v : list T).

(** The copy-on-write update of the container to the elements [v']: in
    place when it is the sole holder; else into a fresh storage of which
    it is the sole holder, the old storage keeping its elements and losing
    one holder. *)
Definition written s s' (v' : list T) : Prop :=
  match _storage s with
  | Some l =>
      ∃ v n, heap s !! l = Some (Shared v n) ∧
        if decide (n = 1) then
          s' = State (Some l) (<[l := Shared v' 1]> (heap s)) (_empty_storage s)
        else
          ∃ l', heap s !! l' = None ∧
                s' = State (Some l')
                       (<[l' := Shared v' 1]> (<[l := Shared v (n - 1)]> (heap s)))
                       (_empty_storage s)
  | None =>
      ∃ l', heap s !! l' = None ∧
            s' = State (Some l') (<[l' := Shared v' 1]> (heap s)) (_empty_storage s)
  end.

(** No storage stays allocated without a holder. *)
Definition counts_positive (h : gmap positive (@shared T)) : Prop :=
  ∀ l c, h !! l = Some c → 1 ≤ use_count c.

(** The iterators of one snapshot of storage [l]: sentinels, and the
    bound iterators [begin()] makes for [l], moved or not: they hold [l],
    their cursor points into [l], and their captured end is the offset
    [last] in [l]. *)
Definition of_snapshot (l : positive) (last : Z) (it : iterator) : Prop :=
  iterator_storage it = None ∨
  (iterator_storage it = Some l ∧ base (_it it) = Some l ∧
   _end it = ConstIterator (Some l) last).

(** Where an iterator of a snapshot stands: a sentinel at the captured
    end, a bound iterator at the offset of its cursor. *)
Definition position (last : Z) (it : iterator) : Z :=
  match iterator_storage it with
  | None => last
  | Some _ => offset (_it it)
  end.

(** What [removeFirst] and [removeLast] leave when they remove the
    element at index [i] of [v]. *)
Definition one_removed s s' (i : nat) : Prop :=
  if decide (length (contents s) = 1) then
    s' = State None (release_heap (_storage s) (heap s)) (_empty_storage s)
  else written s s' (delete i (contents s)).

End more_spec.

(** ** Concrete containers *)

(** A container holding [7], sole holder of its storage. *)
Definition one_element : @state nat :=
  State (Some 2%positive)
    {[ 1%positive := Shared [] 1; 2%positive := Shared [7] 1 ]}
    (Some 1%positive).

(** A container holding [1; 2], sole holder of its storage. *)
Definition two_elements : @state nat :=
  State (Some 2%positive)
    {[ 1%positive := Shared [] 1; 2%positive := Shared [1; 2] 1 ]}
    (Some 1%positive).

(** A container holding [1; 2] whose storage has a second holder. *)
Definition shared_pair : @state nat :=
  State (Some 2%positive)
    {[ 1%positive := Shared [] 1; 2%positive := Shared [1; 2] 2 ]}
    (Some 1%positive).

(** The iterator [begin()] yields on [two_elements] or [shared_pair]. *)
Definition pair_begin : iterator :=
  Iterator (Some 2%positive) (ConstIterator (Some 2%positive) 0)
    (ConstIterator (Some 2%positive) 2).

Definition is_7 (x : nat) : bool := x =? 7.
Definition is_2 (x : nat) : bool := x =? 2.
Definition is_2_or_3 (x : nat) : bool := (x =? 3) || (x =? 2).
Definition is_1 (x : nat) : bool := x =? 1.

(** A container holding [7] whose storage has a second holder. *)
Definition shared_one : @state nat :=
  State (Some 2%positive)
    {[ 1%positive := Shared [] 1; 2%positive := Shared [7] 2 ]}
    (Some 1%positive).

(** * Reasoning about calls *)

Ltac norm := unfold set_heap; cbn [_storage heap _empty_storage object use_count].
Ltac look :=
  norm;
  solve [ eassumption
        | rewrite lookup_insert_eq; reflexivity
        | rewrite lookup_insert_ne by done; eassumption ].

Section reasoning.
Context {T : Type}.
Local Open Scope cow_scope.
Local Abbreviation M := (@M T).
Local Abbreviation state := (@state T).
Implicit Types (s : state) (h : gmap positive (@shared T)) (v : list T).

(** ** Rules for the monad and for the primitives

    Each rule reduces the specification of a call to that of what runs
    after it, so a method body is verified step by step from its first
    statement. *)

Lemma spec_ret {A} (a : A) s Q E : Q a s → spec (ret a) s Q E.
Proof. intros HQ b. simpl. auto. Qed.

Lemma spec_bind {A B} (m : M A) (f : A → M B) s Q E :
  spec m s (λ a s', spec (f a) s' Q E) E → spec (bind m f) s Q E.
Proof.
  intros Hm b. specialize (Hm b). unfold bind.
  destruct (m s b) as [[[a|e|] s1] b1]; [|done..].
  destruct Hm as [Hf Hb]. specialize (Hf b1).
  destruct (f a s1 b1) as [[[c|e|] s2] b2]; [| |done].
  - destruct Hf as [HQ Hb']. split; [done|]. auto.
  - destruct Hf as [HE Hb']. split; [done|]. intros ->. auto.
Qed.

Lemma spec_conseq {A} (m : M A) s (Q Q' : A → state → Prop) (E E' : state → Prop) :
  spec m s Q E →
  (∀ a s', Q a s' → Q' a s') → (∀ s', E s' → E' s') →
  spec m s Q' E'.
Proof.
  intros Hm HQ HE b. specialize (Hm b).
  destruct (m s b) as [[[a|e|] s1] b1]; [| |done]; destruct Hm; split; auto.
Qed.

Lemma spec_fallible e s Q E : E s → Q () s → spec (fallible e) s Q E.
Proof. intros HE HQ [[|n]|]; simpl; auto. done. Qed.

Lemma spec_field {A} (f : state → A) s Q E : Q (f s) s → spec (field f) s Q E.
Proof. intros HQ b. simpl. auto. Qed.

Lemma spec_scoped {A} (p : TStoragePtr) (body : M A) s Q E :
  spec body s (λ a s', Q a (set_heap (release_heap p (heap s')) s'))
              (λ s', E (set_heap (release_heap p (heap s')) s')) →
  spec (scoped p body) s Q E.
Proof.
  intros Hm b. specialize (Hm b). unfold scoped.
  by destruct (body s b) as [[[a|e|] s1] b1].
Qed.

Lemma spec_acquire p s Q E :
  Q () (set_heap (acquire_heap p (heap s)) s) → spec (acquire p) s Q E.
Proof. intros HQ b. simpl. auto. Qed.

Lemma spec_assign_storage p s Q E :
  Q () (State p (release_heap (_storage s) (acquire_heap p (heap s))) (_empty_storage s)) →
  spec (assign_storage p) s Q E.
Proof. intros HQ b. simpl. auto. Qed.

Lemma spec_reset_storage s Q E :
  Q () (State None (release_heap (_storage s) (heap s)) (_empty_storage s)) →
  spec reset_storage s Q E.
Proof. intros HQ b. simpl. auto. Qed.

Lemma spec_get_use_count_null s Q E : Q 0 s → spec (get_use_count None) s Q E.
Proof. apply spec_ret. Qed.

Lemma spec_get_use_count l c s Q E :
  heap s !! l = Some c → Q (use_count c) s → spec (get_use_count (Some l)) s Q E.
Proof. intros Hl HQ b. unfold get_use_count, bind, field. rewrite Hl. simpl. auto. Qed.

Lemma spec_load l c s Q E :
  heap s !! l = Some c → Q (object c) s → spec (load (Some l)) s Q E.
Proof. intros Hl HQ b. unfold load, bind, field. rewrite Hl. simpl. auto. Qed.

Lemma spec_store l c v s Q E :
  heap s !! l = Some c →
  Q () (set_heap (<[l := Shared v (use_count c)]> (heap s)) s) →
  spec (store (Some l) v) s Q E.
Proof. intros Hl HQ b. unfold store. rewrite Hl. auto. Qed.

Lemma spec_new_TStorage s Q E :
  E s →
  (∀ l, heap s !! l = None → Q (Some l) (set_heap (<[l := Shared [] 1]> (heap s)) s)) →
  spec new_TStorage s Q E.
Proof.
  intros HE HQ. unfold new_TStorage. apply spec_bind, spec_fallible; [done|].
  intros b. split; [|done]. apply HQ, not_elem_of_dom, is_fresh.
Qed.

Lemma spec_std_size l c s Q E :
  heap s !! l = Some c → Q (length (object c)) s → spec (std_size (Some l)) s Q E.
Proof.
  intros Hl HQ. unfold std_size. apply spec_bind. eapply spec_load; [done|].
  by apply spec_ret.
Qed.

Lemma spec_std_empty l c s Q E :
  heap s !! l = Some c →
  Q (match object c with [] => true | _ => false end) s →
  spec (std_empty (Some l)) s Q E.
Proof.
  intros Hl HQ. unfold std_empty. apply spec_bind. eapply spec_load; [done|].
  by apply spec_ret.
Qed.

Lemma spec_std_reserve l c n s Q E :
  heap s !! l = Some c → E s → Q () s → spec (std_reserve (Some l) n) s Q E.
Proof.
  intros Hl HE HQ. unfold std_reserve. apply spec_bind. eapply spec_load; [done|].
  by apply spec_fallible.
Qed.

Lemma spec_std_push_back l c t s Q E :
  heap s !! l = Some c → E s →
  Q () (set_heap (<[l := Shared (object c ++ [t]) (use_count c)]> (heap s)) s) →
  spec (std_push_back (Some l) t) s Q E.
Proof.
  intros Hl HE HQ. unfold std_push_back. apply spec_bind. eapply spec_load; [done|].
  apply spec_bind, spec_fallible; [done|]. by eapply spec_store.
Qed.

Lemma spec_std_insert_begin l c t s Q E :
  heap s !! l = Some c → E s →
  Q () (set_heap (<[l := Shared (t :: object c) (use_count c)]> (heap s)) s) →
  spec (std_insert_begin (Some l) t) s Q E.
Proof.
  intros Hl HE HQ. unfold std_insert_begin. apply spec_bind. eapply spec_load; [done|].
  apply spec_bind, spec_fallible; [done|]. by eapply spec_store.
Qed.

Lemma spec_std_erase l c i s Q E :
  heap s !! l = Some c → i < length (object c) →
  Q () (set_heap (<[l := Shared (delete i (object c)) (use_count c)]> (heap s)) s) →
  spec (std_erase (Some l) i) s Q E.
Proof.
  intros Hl Hi HQ. unfold std_erase. apply spec_bind. eapply spec_load; [done|].
  rewrite decide_True by done. by eapply spec_store.
Qed.

Lemma spec_std_deref l c i x s Q E :
  heap s !! l = Some c → object c !! i = Some x → Q x s →
  spec (std_deref (Some l) i) s Q E.
Proof.
  intros Hl Hi HQ. unfold std_deref. apply spec_bind. eapply spec_load; [done|].
  rewrite Hi. by apply spec_ret.
Qed.

Lemma spec_call predicate x s Q E :
  E s → Q (predicate x) s → spec (call predicate x) s Q E.
Proof.
  intros HE HQ. unfold call. apply spec_bind, spec_fallible; [done|].
  by apply spec_ret.
Qed.

(** ** Facts about the heap of shared storages *)

(** A local pointer to a storage nobody else holds frees it. *)
Lemma release_unpublished h l v :
  h !! l = None → release_heap (Some l) (<[l := Shared v 1]> h) = h.
Proof.
  intros Hl. unfold release_heap. rewrite lookup_insert_eq.
  cbn [use_count object]. rewrite decide_True by lia. by apply delete_insert_id.
Qed.

Lemma release_heap_lookup_ne h p l :
  p ≠ Some l → release_heap p h !! l = h !! l.
Proof.
  intros Hne. destruct p as [l'|]; [|done]. simpl.
  assert (l' ≠ l) by congruence.
  destruct (h !! l') as [c|] eqn:Hc; [|done].
  case_decide; [by rewrite lookup_delete_ne|by rewrite lookup_insert_ne].
Qed.

Lemma release_heap_insert_ne h p l c :
  p ≠ Some l → release_heap p (<[l := c]> h) = <[l := c]> (release_heap p h).
Proof.
  intros Hne. destruct p as [l'|]; [|done]. simpl.
  assert (l' ≠ l) by congruence.
  rewrite lookup_insert_ne by done.
  destruct (h !! l') as [c'|] eqn:Hc; [|done].
  case_decide; [by rewrite delete_insert_ne|by rewrite insert_insert_ne].
Qed.

(** Building a storage behind a local pointer, assigning it to the field
    and leaving the scope: the new storage ends with the field as its only
    holder, and the old storage loses one holder. *)
Lemma publish h p l v :
  h !! l = None → p ≠ Some l →
  release_heap (Some l) (release_heap p (acquire_heap (Some l) (<[l := Shared v 1]> h)))
  = <[l := Shared v 1]> (release_heap p h).
Proof.
  intros Hl Hne. unfold acquire_heap. rewrite lookup_insert_eq, insert_insert_eq.
  cbn [use_count object]. rewrite release_heap_insert_ne by done.
  unfold release_heap at 1. rewrite lookup_insert_eq.
  cbn [use_count object]. rewrite decide_False by lia. by rewrite insert_insert_eq.
Qed.

Lemma state_insert_id p h e l c :
  h !! l = Some c → State p (<[l := c]> h) e = State p h e.
Proof. intros Hl. by rewrite insert_id. Qed.

(** ** The loops *)

Lemma spec_std_insert_end l range : ∀ v n p h e Q E,
  h !! l = Some (Shared v n) →
  (∀ acc, E (State p (<[l := Shared acc n]> h) e)) →
  Q () (State p (<[l := Shared (v ++ range) n]> h) e) →
  spec (std_insert_end (Some l) range) (State p h e) Q E.
Proof.
  induction range as [|x range IH]; intros v n p h e Q E Hl HE HQ.
  - apply spec_ret. by rewrite app_nil_r, state_insert_id in HQ.
  - cbn [std_insert_end]. apply spec_bind. eapply spec_std_push_back; [done| |].
    { specialize (HE v). by rewrite state_insert_id in HE. }
    norm. eapply IH.
    + by rewrite lookup_insert_eq.
    + intros acc. by rewrite insert_insert_eq.
    + by rewrite insert_insert_eq, <- app_assoc.
Qed.

Lemma spec_remove_copying predicate l elems : ∀ acc count p h e Q E,
  h !! l = Some (Shared acc 1) →
  (∀ acc', E (State p (<[l := Shared acc' 1]> h) e)) →
  Q (count + length (List.filter predicate elems))
    (State p (<[l := Shared (acc ++ List.filter (λ x, negb (predicate x)) elems) 1]> h) e) →
  spec (remove_copying predicate (Some l) elems count) (State p h e) Q E.
Proof.
  induction elems as [|x elems IH]; intros acc count p h e Q E Hl HE HQ.
  - apply spec_ret. simpl in HQ.
    by rewrite Nat.add_0_r, app_nil_r, state_insert_id in HQ.
  - cbn [remove_copying]. apply spec_bind, spec_call.
    { specialize (HE acc). by rewrite state_insert_id in HE. }
    simpl in HQ. destruct (predicate x); simpl in HQ.
    + eapply IH; [done..|]. by rewrite <- Nat.add_succ_comm in HQ.
    + apply spec_bind. eapply spec_std_push_back; [done| |].
      { specialize (HE acc). by rewrite state_insert_id in HE. }
      norm. eapply IH.
      * by rewrite lookup_insert_eq.
      * intros acc'. by rewrite insert_insert_eq.
      * by rewrite insert_insert_eq, <- app_assoc.
Qed.

Lemma spec_remove_in_place predicate l rest : ∀ pre n count p h e Q E,
  h !! l = Some (Shared (pre ++ rest) n) →
  (∀ v', E (State p (<[l := Shared v' n]> h) e)) →
  Q (count + length (List.filter predicate rest))
    (State p (<[l := Shared (pre ++ List.filter (λ x, negb (predicate x)) rest) n]> h) e) →
  spec (remove_in_place predicate (Some l) (length rest) (length pre) count)
       (State p h e) Q E.
Proof.
  induction rest as [|x rest IH]; intros pre n count p h e Q E Hl HE HQ.
  - apply spec_ret. simpl in HQ.
    by rewrite Nat.add_0_r, state_insert_id in HQ.
  - cbn [remove_in_place length]. apply spec_bind.
    eapply spec_std_deref; [done| |].
    { cbn. by rewrite lookup_app_r, Nat.sub_diag. }
    apply spec_bind, spec_call.
    { specialize (HE (pre ++ x :: rest)). by rewrite state_insert_id in HE. }
    simpl in HQ. destruct (predicate x); simpl in HQ.
    + apply spec_bind. eapply spec_std_erase; [done| |].
      { cbn. rewrite length_app. simpl. lia. }
      norm. replace (delete (length pre) (pre ++ x :: rest)) with (pre ++ rest).
      2:{ rewrite delete_middle. done. }
      eapply IH.
      * by rewrite lookup_insert_eq.
      * intros v'. by rewrite insert_insert_eq.
      * by rewrite insert_insert_eq, <- Nat.add_succ_comm in *.
    + replace (S (length pre)) with (length (pre ++ [x])) by (rewrite length_app; simpl; lia).
      eapply IH.
      * by rewrite <- app_assoc.
      * done.
      * by rewrite <- app_assoc.
Qed.

Lemma spec_find_if predicate range : ∀ first s Q E,
  E s → Q (first + first_match predicate range) s →
  spec (find_if predicate range first) s Q E.
Proof.
  induction range as [|x range IH]; intros first s Q E HE HQ; simpl in *.
  - apply spec_ret. by rewrite Nat.add_0_r in HQ.
  - apply spec_bind, spec_call; [done|].
    destruct (predicate x).
    + apply spec_ret. by rewrite Nat.add_0_r in HQ.
    + apply IH; [done|]. by rewrite <- Nat.add_succ_comm in HQ.
Qed.

Lemma contents_eq p h e l v n :
  p = Some l → h !! l = Some (Shared v n) → contents (State p h e) = v.
Proof. intros -> Hl. unfold contents. cbn. by rewrite Hl. Qed.

Lemma fresh_ne h (l l' : positive) c : h !! l = Some c → h !! l' = None → l ≠ l'.
Proof. congruence. Qed.

Lemma storage_ok_lookup l h e :
  storage_ok (State (Some l) h e) → ∃ v n, h !! l = Some (Shared v n) ∧ 1 ≤ n.
Proof. intros Hok. destruct (Hok l eq_refl) as ([v n] & Hl & Hn). eauto. Qed.

Lemma not_sole_holder_null h e : ¬ sole_holder (State None h e).
Proof. by intros (l & v & [=] & _). Qed.

Lemma not_sole_holder_shared l h e v n :
  h !! l = Some (Shared v n) → n ≠ 1 → ¬ sole_holder (State (Some l) h e).
Proof. intros Hl Hn (l1 & v1 & [= <-] & Hl1). cbn in Hl1. congruence. Qed.

Lemma push_back_spec t s :
  wf s →
  spec (push_back t) s
    (λ _ s', cow_step s s' ∧ contents s' = contents s ++ [t])
    (failure_post s).
Proof.
  destruct s as [p h e]. intros [Hok _]. unfold push_back.
  apply spec_bind, spec_field. cbn [_storage].
  destruct p as [l|].
  - destruct (storage_ok_lookup _ _ _ Hok) as (v & n & Hl & Hn).
    apply spec_bind. eapply spec_get_use_count; [look|]. norm.
    case_decide as Hn1.
    + subst n. eapply spec_std_push_back; [look| |]; norm.
      * split; [by apply step_unchanged|done].
      * split; [by eapply step_in_place|].
        erewrite !contents_eq; [done..|]. by rewrite lookup_insert_eq.
    + pose proof (not_sole_holder_shared _ _ e _ _ Hl Hn1) as Hshared.
      apply spec_bind, spec_new_TStorage; [split; [by apply step_unchanged|done]|].
      intros l' Hl'. norm. pose proof (fresh_ne _ _ _ _ Hl Hl') as Hne.
      apply spec_scoped, spec_bind, spec_bind.
      eapply spec_std_size; [look|]. norm.
      apply spec_bind. eapply spec_std_reserve; [look| |]; norm.
      { rewrite release_unpublished by done. split; [by apply step_unchanged|done]. }
      apply spec_bind. eapply spec_load; [look|]. norm.
      eapply spec_std_insert_end; [look| |]; norm.
      { intros acc. rewrite insert_insert_eq, release_unpublished by done.
        split; [by apply step_unchanged|done]. }
      rewrite insert_insert_eq.
      apply spec_bind. eapply spec_std_push_back; [look| |]; norm.
      { rewrite release_unpublished by done. split; [by apply step_unchanged|done]. }
      rewrite insert_insert_eq.
      apply spec_assign_storage. norm.
      rewrite publish by (done || congruence).
      split; [by eapply step_replaced|].
      erewrite (contents_eq _ _ _ l'); [|done|by rewrite lookup_insert_eq].
      by erewrite contents_eq.
  - apply spec_bind, spec_get_use_count_null. norm.
    pose proof (not_sole_holder_null h e) as Hshared.
    rewrite decide_False by done.
    apply spec_bind, spec_new_TStorage; [split; [by apply step_unchanged|done]|].
    intros l' Hl'. norm.
    apply spec_scoped, spec_bind.
    eapply spec_std_reserve; [look| |]; norm.
    { rewrite release_unpublished by done. split; [by apply step_unchanged|done]. }
    apply spec_bind. eapply spec_std_push_back; [look| |]; norm.
    { rewrite release_unpublished by done. split; [by apply step_unchanged|done]. }
    rewrite insert_insert_eq.
    apply spec_assign_storage. norm.
    rewrite publish by done.
    split; [by eapply step_replaced|].
    erewrite (contents_eq _ _ _ l'); [|done|by rewrite lookup_insert_eq]. done.
Qed.

Ltac unch := split; [by apply step_unchanged|done].
Ltac discard := norm; rewrite ?insert_insert_eq, release_unpublished by done; unch.

Lemma emplace_back_spec args s :
  wf s →
  spec (emplace_back args) s
    (λ _ s', cow_step s s' ∧ contents s' = contents s ++ [args])
    (failure_post s).
Proof. apply push_back_spec. Qed.

Lemma push_front_spec t s :
  wf s →
  spec (push_front t) s
    (λ _ s', cow_step s s' ∧ contents s' = t :: contents s)
    (failure_post s).
Proof.
  destruct s as [p h e]. intros [Hok _]. unfold push_front.
  apply spec_bind, spec_field. cbn [_storage].
  destruct p as [l|].
  - destruct (storage_ok_lookup _ _ _ Hok) as (v & n & Hl & Hn).
    apply spec_bind. eapply spec_get_use_count; [look|]. norm.
    case_decide as Hn1.
    + subst n. eapply spec_std_insert_begin; [look| |]; norm.
      * unch.
      * split; [by eapply step_in_place|].
        erewrite !contents_eq; [done..|]. by rewrite lookup_insert_eq.
    + pose proof (not_sole_holder_shared _ _ e _ _ Hl Hn1) as Hshared.
      apply spec_bind, spec_new_TStorage; [unch|].
      intros l' Hl'. norm. pose proof (fresh_ne _ _ _ _ Hl Hl') as Hne.
      apply spec_scoped, spec_bind, spec_bind.
      eapply spec_std_size; [look|]. norm.
      apply spec_bind. eapply spec_std_reserve; [look| |]; [discard|].
      apply spec_bind. eapply spec_std_push_back; [look| |]; [discard|]. norm.
      rewrite insert_insert_eq.
      apply spec_bind. eapply spec_load; [look|]. norm.
      eapply spec_std_insert_end; [look| |]; [intros acc; discard|]. norm.
      rewrite insert_insert_eq.
      apply spec_assign_storage. norm.
      rewrite publish by (done || congruence).
      split; [by eapply step_replaced|].
      erewrite (contents_eq _ _ _ l'); [|done|by rewrite lookup_insert_eq].
      by erewrite contents_eq.
  - apply spec_bind, spec_get_use_count_null. norm.
    pose proof (not_sole_holder_null h e) as Hshared.
    rewrite decide_False by done.
    apply spec_bind, spec_new_TStorage; [unch|].
    intros l' Hl'. norm.
    apply spec_scoped, spec_bind, spec_bind.
    eapply spec_std_reserve; [look| |]; [discard|].
    eapply spec_std_push_back; [look| |]; [discard|]. norm.
    rewrite insert_insert_eq.
    apply spec_assign_storage. norm.
    rewrite publish by done.
    split; [by eapply step_replaced|].
    erewrite (contents_eq _ _ _ l'); [|done|by rewrite lookup_insert_eq]. done.
Qed.

Lemma clear_spec s :
  spec clear s (λ _ s', cow_step s s' ∧ contents s' = []) (failure_post s).
Proof. apply spec_reset_storage. split; [by apply step_reset|done]. Qed.

(** *** Lists *)

Lemma filter_length_eq (f : T → bool) v :
  length (List.filter f v) = length v → List.filter f v = v.
Proof.
  induction v as [|x v IH]; [done|]. simpl.
  destruct (f x); simpl; intros Hlen.
  - f_equal. apply IH. lia.
  - pose proof (List.filter_length_le f v). lia.
Qed.

Lemma first_match_le predicate v : first_match predicate v ≤ length v.
Proof. induction v as [|x v IH]; simpl; [done|]. destruct (predicate x); lia. Qed.

Lemma first_match_lt predicate v :
  first_match predicate v < length v ↔ existsb predicate v = true.
Proof.
  induction v as [|x v IH]; simpl; [split; [lia|done]|].
  destruct (predicate x); simpl; [split; [done|lia]|].
  rewrite <- IH. lia.
Qed.

Lemma delete_reverse v i :
  i < length v → delete (length v - i - 1) v = reverse (delete i (reverse v)).
Proof.
  intros Hi. rewrite !delete_take_drop, reverse_app, reverse_drop, reverse_take.
  rewrite reverse_involutive, length_reverse.
  f_equal; f_equal; lia.
Qed.

Lemma delete_first_match predicate v :
  delete (first_match predicate v) v = remove_first_match predicate v.
Proof.
  induction v as [|x v IH]; simpl; [done|].
  destruct (predicate x); simpl; [done|]. by rewrite <- IH.
Qed.

Lemma delete_last_match predicate v :
  first_match predicate (reverse v) ≠ length v →
  delete (length v - first_match predicate (reverse v) - 1) v
  = remove_last_match predicate v.
Proof.
  intros Hne. unfold remove_last_match.
  pose proof (first_match_le predicate (reverse v)) as Hle.
  rewrite length_reverse in Hle.
  rewrite delete_reverse by lia. by rewrite delete_first_match.
Qed.

Lemma removeAt_spec it l v n h e :
  h !! l = Some (Shared v n) → 1 ≤ n → it ≤ length v →
  spec (removeAt it) (State (Some l) h e)
    (λ r s', cow_step (State (Some l) h e) s' ∧
             r = bool_decide (it < length v) ∧
             contents s' = delete it v ∧
             (r = true → contents s' = [] → _storage s' = None))
    (failure_post (State (Some l) h e)).
Proof.
  intros Hl Hn Hit. unfold removeAt.
  apply spec_bind, spec_field. norm.
  apply spec_bind. eapply spec_std_size; [look|]. norm.
  case_decide as Hend; [|case_decide as Hone].
  - apply spec_ret. split; [by apply step_unchanged|].
    rewrite bool_decide_eq_false_2 by lia.
    erewrite contents_eq by done.
    rewrite delete_take_drop, take_ge, drop_ge, app_nil_r by lia. done.
  - apply spec_bind, spec_reset_storage. apply spec_ret.
    split; [by apply step_reset|].
    rewrite bool_decide_eq_true_2 by lia.
    destruct v as [|x [|??]]; try done.
    assert (it = 0) as -> by (simpl in *; lia). done.
  - apply spec_bind. eapply spec_get_use_count; [look|]. norm.
    assert (Hlt : it < length v) by lia.
    case_decide as Hn1.
    + subst n. apply spec_bind. eapply spec_std_erase; [look|done|]. norm.
      apply spec_ret. split; [by eapply step_in_place|].
      rewrite bool_decide_eq_true_2 by done.
      erewrite contents_eq; [|done|by rewrite lookup_insert_eq].
      split; [done|split; [done|]]. intros _ Hnil.
      apply (f_equal length) in Hnil. rewrite length_delete in Hnil; [|by apply lookup_lt_is_Some_2].
      simpl in Hnil. lia.
    + pose proof (not_sole_holder_shared _ _ e _ _ Hl Hn1) as Hshared.
      apply spec_bind, spec_new_TStorage; [unch|].
      intros l' Hl'. norm. pose proof (fresh_ne _ _ _ _ Hl Hl') as Hne.
      apply spec_bind, spec_scoped, spec_bind.
      eapply spec_std_reserve; [look| |]; [discard|].
      apply spec_bind. eapply spec_load; [look|]. norm.
      apply spec_bind.
      lazymatch goal with
      | |- spec _ _ ?Q ?E =>
          assert (Hrest : ∀ acc, acc = take it v →
                    Q () (State (Some l) (<[l' := Shared acc 1]> h) e))
      end.
      { intros acc ->. apply spec_bind.
        assert (Hfinal : spec (assign_storage (Some l'))
                  (State (Some l) (<[l' := Shared (delete it v) 1]> h) e)
                  (λ a s', spec (ret true) (set_heap (release_heap (Some l') (heap s')) s')
                     (λ r s', cow_step (State (Some l) h e) s' ∧
                              r = bool_decide (it < length v) ∧
                              contents s' = delete it v ∧
                              (r = true → contents s' = [] → _storage s' = None))
                     (failure_post (State (Some l) h e)))
                  (λ s', failure_post (State (Some l) h e)
                           (set_heap (release_heap (Some l') (heap s')) s'))).
        { apply spec_assign_storage. norm. rewrite publish by (done || congruence).
          apply spec_ret. split; [by eapply step_replaced|].
          rewrite bool_decide_eq_true_2 by done.
          erewrite (contents_eq _ _ _ l'); [|done|by rewrite lookup_insert_eq].
          split; [done|split; [done|]]. intros _ Hnil.
          apply (f_equal length) in Hnil.
          rewrite length_delete in Hnil; [|by apply lookup_lt_is_Some_2].
          simpl in Hnil. lia. }
        destruct (decide (S it ≠ length v)) as [Hlast|Hlast].
        - eapply spec_std_insert_end; [look| |]; [intros acc; discard|]. norm.
          rewrite insert_insert_eq, <- delete_take_drop. apply Hfinal.
        - apply spec_ret.
          replace (take it v) with (delete it v); [apply Hfinal|].
          rewrite delete_take_drop, drop_ge, app_nil_r by lia. done. }
      destruct (decide (it ≠ 0)) as [Hfirst|Hfirst].
      * eapply spec_std_insert_end; [look| |]; [intros acc; discard|]. norm.
        rewrite insert_insert_eq. by apply Hrest.
      * apply spec_ret. apply Hrest. assert (it = 0) as -> by lia. done.
Qed.

Lemma removeFirst_spec predicate s :
  wf s →
  spec (removeFirst predicate) s
    (λ r s', cow_step s s' ∧
             r = existsb predicate (contents s) ∧
             contents s' = remove_first_match predicate (contents s) ∧
             (r = true → contents s' = [] → _storage s' = None))
    (failure_post s).
Proof.
  destruct s as [p h e]. intros [Hok _]. unfold removeFirst.
  apply spec_bind, spec_field. norm.
  destruct p as [l|]; [|apply spec_ret; split; [by apply step_unchanged|done]].
  destruct (storage_ok_lookup _ _ _ Hok) as (v & n & Hl & Hn).
  apply spec_bind. eapply spec_std_empty; [look|]. norm.
  erewrite contents_eq by done.
  destruct v as [|x v'] eqn:Hv.
  { apply spec_ret. split; [by apply step_unchanged|]. by erewrite contents_eq by done. }
  rewrite <- Hv in *. clear Hv.
  apply spec_bind. eapply spec_load; [look|]. norm.
  apply spec_bind, spec_find_if; [unch|]. simpl.
  eapply spec_conseq; [eapply removeAt_spec; [done..|apply first_match_le]| |done].
  intros r s' (Hstep & -> & Hc & Hnull). cbn beta.
  rewrite delete_first_match in Hc.
  split; [done|]. split; [|done].
  apply eq_true_iff_eq. rewrite bool_decide_eq_true. apply first_match_lt.
Qed.

Lemma existsb_reverse (predicate : T → bool) v :
  existsb predicate (reverse v) = existsb predicate v.
Proof.
  apply eq_true_iff_eq. rewrite !existsb_exists.
  split; intros (y & Hy & Hp); exists y; (split; [|done]);
    apply list_elem_of_In; apply list_elem_of_In in Hy.
  - by rewrite elem_of_reverse in Hy.
  - by rewrite elem_of_reverse.
Qed.

Lemma removeLast_spec predicate s :
  wf s →
  spec (removeLast predicate) s
    (λ r s', cow_step s s' ∧
             r = existsb predicate (contents s) ∧
             contents s' = remove_last_match predicate (contents s) ∧
             (r = true → contents s' = [] → _storage s' = None))
    (failure_post s).
Proof.
  destruct s as [p h e]. intros [Hok _]. unfold removeLast.
  apply spec_bind, spec_field. norm.
  destruct p as [l|]; [|apply spec_ret; split; [by apply step_unchanged|done]].
  destruct (storage_ok_lookup _ _ _ Hok) as (v & n & Hl & Hn).
  apply spec_bind. eapply spec_std_empty; [look|]. norm.
  erewrite contents_eq by done.
  destruct v as [|x v'] eqn:Hv.
  { apply spec_ret. split; [by apply step_unchanged|]. by erewrite contents_eq by done. }
  rewrite <- Hv in *. clear Hv.
  apply spec_bind. eapply spec_load; [look|]. norm.
  apply spec_bind, spec_find_if; [unch|]. simpl.
  pose proof (first_match_le predicate (reverse v)) as Hle.
  pose proof (first_match_lt predicate (reverse v)) as Hlt.
  rewrite length_reverse in Hle, Hlt.
  rewrite existsb_reverse in Hlt.
  case_decide as Hend.
  - apply spec_ret. split; [by apply step_unchanged|].
    assert (Hno : existsb predicate v = false).
    { apply not_true_is_false. rewrite <- Hlt. lia. }
    rewrite Hno. split; [done|]. split; [|done].
    erewrite contents_eq by done. unfold remove_last_match. rewrite <- delete_first_match, Hend.
    rewrite <- (length_reverse v), delete_take_drop, take_ge, drop_ge, app_nil_r by lia.
    by rewrite reverse_involutive.
  - eapply spec_conseq; [eapply removeAt_spec; [done..|lia]| |done].
    intros r s' (Hstep & -> & Hc & Hnull). cbn beta.
    rewrite delete_last_match in Hc by done.
    split; [done|]. split; [|done].
    rewrite bool_decide_eq_true_2 by lia. symmetry. apply Hlt. lia.
Qed.

Lemma remove_spec predicate s :
  wf s →
  spec (remove predicate) s
    (λ r s', cow_step s s' ∧
             r = length (List.filter predicate (contents s)) ∧
             contents s' = List.filter (λ x, negb (predicate x)) (contents s) ∧
             (¬ sole_holder s → 0 < r → contents s' = [] → _storage s' = None))
    (failure_post s).
Proof.
  destruct s as [p h e]. intros [Hok _]. unfold remove.
  apply spec_bind, spec_field. norm.
  destruct p as [l|]; [|apply spec_ret; split; [by apply step_unchanged|done]].
  destruct (storage_ok_lookup _ _ _ Hok) as (v & n & Hl & Hn).
  apply spec_bind. eapply spec_std_empty; [look|]. norm.
  erewrite contents_eq by done.
  destruct v as [|x v'] eqn:Hv.
  { apply spec_ret. split; [by apply step_unchanged|]. erewrite contents_eq by done.
    simpl. repeat split; try done. lia. }
  rewrite <- Hv in *. assert (Hlen : length v ≠ 0) by (by subst v). clear Hv.
  apply spec_bind. eapply spec_get_use_count; [look|]. norm.
  case_decide as Hn1.
  - subst n. apply spec_bind. eapply spec_std_size; [look|]. norm.
    apply (spec_remove_in_place predicate l v [] 1 0); [done| |].
    + intros w. split; [by eapply step_in_place|].
      intros []. by exists l, v.
    + simpl. split; [by eapply step_in_place|].
      erewrite contents_eq; [|done|by rewrite lookup_insert_eq].
      repeat split; try done. intros []. by exists l, v.
  - pose proof (not_sole_holder_shared _ _ e _ _ Hl Hn1) as Hshared.
    apply spec_bind, spec_new_TStorage; [unch|].
    intros l' Hl'. norm. pose proof (fresh_ne _ _ _ _ Hl Hl') as Hne.
    apply spec_scoped, spec_bind.
    eapply spec_std_size; [look|]. norm.
    apply spec_bind. eapply spec_std_reserve; [look| |]; [discard|].
    apply spec_bind. eapply spec_load; [look|]. norm.
    apply spec_bind. eapply spec_remove_copying; [look| |]; [intros acc; discard|]. norm.
    rewrite insert_insert_eq. cbn [app Nat.add].
    apply spec_bind. eapply spec_std_size; [look|]. norm.
    apply spec_bind. eapply spec_std_size; [look|]. norm.
    case_decide as Hsame.
    + apply spec_ret. norm. rewrite release_unpublished by done.
      split; [by apply step_unchanged|].
      erewrite contents_eq by done.
      symmetry in Hsame. apply filter_length_eq in Hsame.
      pose proof (List.filter_length predicate v) as Hsum.
      rewrite Hsame in *. repeat split; try done. lia.
    + apply spec_bind. eapply spec_std_empty; [look|]. norm.
      destruct (List.filter (λ x, negb (predicate x)) v) as [|y w] eqn:Hw.
      * apply spec_bind, spec_reset_storage. norm. apply spec_ret. norm.
        rewrite release_heap_insert_ne by congruence.
        rewrite release_unpublished by (by rewrite release_heap_lookup_ne by congruence).
        split; [by apply step_reset|]. done.
      * apply spec_bind, spec_assign_storage. norm. apply spec_ret. norm.
        rewrite publish by (done || congruence).
        split; [by eapply step_replaced|].
        erewrite (contents_eq _ _ _ l'); [|done|by rewrite lookup_insert_eq].
        done.
Qed.

(** ** What a step preserves *)

Lemma release_heap_lookup_shared h l v n :
  h !! l = Some (Shared v n) → 2 ≤ n →
  release_heap (Some l) h !! l = Some (Shared v (n - 1)).
Proof.
  intros Hl Hn. unfold release_heap. rewrite Hl. cbn [use_count object].
  rewrite decide_False by lia. by rewrite lookup_insert_eq.
Qed.

Lemma held_elsewhere_released s l v p' e' :
  held_elsewhere s l v → p' ≠ Some l →
  held_elsewhere (State p' (release_heap (_storage s) (heap s)) e') l v.
Proof.
  intros (n & Hl & Hn) Hp'. unfold held_elsewhere.
  case_decide as Hs.
  - exists (n - 1). norm. rewrite Hs, decide_False by done.
    split; [by apply release_heap_lookup_shared|lia].
  - exists n. norm. by rewrite release_heap_lookup_ne, decide_False by done.
Qed.

Lemma cow_step_held s s' l v :
  held_elsewhere s l v → cow_step s s' → held_elsewhere s' l v.
Proof.
  intros Hheld [-> | l1 v1 v' Hs Hl1 -> | l' v' Hl' -> | ->]; [done| | |].
  - destruct Hheld as (n & Hl & Hn). exists n. norm.
    destruct (decide (l1 = l)) as [->|Hne].
    + rewrite decide_True in Hn by done. simplify_eq. lia.
    + rewrite lookup_insert_ne by done.
      rewrite decide_False in Hn by congruence.
      by rewrite decide_False by congruence.
  - assert (l' ≠ l) by (destruct Hheld as (n & Hl & _); congruence).
    destruct (held_elsewhere_released s l v (Some l') (_empty_storage s) Hheld)
      as (n & Hl & Hn); [congruence|].
    exists n. cbn [_storage heap _empty_storage] in *.
    rewrite lookup_insert_ne by done. split; [done|].
    rewrite decide_False in Hn by congruence. by rewrite decide_False by congruence.
  - by apply held_elsewhere_released.
Qed.

Lemma cow_step_storage_ok s s' : storage_ok s → cow_step s s' → storage_ok s'.
Proof.
  intros Hok [-> | l1 v1 v' Hs Hl1 -> | l' v' Hl' -> | ->]; [done| | |].
  - intros l [= <-]. norm. rewrite lookup_insert_eq. eauto.
  - intros l [= <-]. norm. rewrite lookup_insert_eq. eauto.
  - by intros l [=].
Qed.

Lemma cow_step_empty_storage s s' : cow_step s s' → _empty_storage s' = _empty_storage s.
Proof. by intros [-> | l1 v1 v' Hs Hl1 -> | l' v' Hl' -> | ->]. Qed.

Lemma cow_step_wf s s' : wf s → cow_step s s' → wf s'.
Proof.
  intros [Hok (l0 & He & Hheld)] Hstep. split; [by eapply cow_step_storage_ok|].
  exists l0. rewrite (cow_step_empty_storage _ _ Hstep).
  split; [done|]. by eapply cow_step_held.
Qed.

Lemma cow_step_unshared s s' : unshared s → cow_step s s' → unshared s'.
Proof.
  intros Hun [-> | l1 v1 v' Hs Hl1 -> | l' v' Hl' -> | ->]; [done| | |].
  - intros l c [= <-]. norm. rewrite lookup_insert_eq. by intros [= <-].
  - intros l c [= <-]. norm. rewrite lookup_insert_eq. by intros [= <-].
  - by intros l c [=].
Qed.

(** ** Sequences of mutating calls *)

Lemma run_spec o s :
  wf s →
  spec (run o) s
    (λ _ s', cow_step s s' ∧ contents s' = reference o (contents s))
    (failure_post s).
Proof.
  intros Hwf. destruct o as [t|t|t|p|p|p|]; simpl.
  - by apply push_front_spec.
  - by apply push_back_spec.
  - by apply emplace_back_spec.
  - apply spec_bind. eapply spec_conseq; [by apply remove_spec| |done].
    intros r s' (? & ? & ? & ?). by apply spec_ret.
  - apply spec_bind. eapply spec_conseq; [by apply removeFirst_spec| |done].
    intros r s' (? & ? & ? & ?). by apply spec_ret.
  - apply spec_bind. eapply spec_conseq; [by apply removeLast_spec| |done].
    intros r s' (? & ? & ? & ?). by apply spec_ret.
  - apply clear_spec.
Qed.


Lemma run_seq_contents ops : ∀ s,
  wf s → unshared s →
  ∃ s', run_seq ops s = Some s' ∧ wf s' ∧ unshared s' ∧
        contents s' = foldl (λ v o, reference o v) (contents s) ops.
Proof.
  induction ops as [|o ops IH]; intros s Hwf Hun; [by exists s|].
  cbn [run_seq foldl]. pose proof (run_spec o s Hwf None) as Hrun.
  destruct (run o s None) as [[[a|x|] s1] b1]; [|by destruct Hrun|done].
  destruct Hrun as [[Hstep Hc] _].
  destruct (IH s1) as (s' & Hall & Hwf' & Hun' & Hc');
    [by eapply cow_step_wf|by eapply cow_step_unshared|].
  exists s'. by rewrite <- Hc.
Qed.

(** ** Capturing a snapshot *)

Lemma acquire_held s p l v :
  held_elsewhere s l v → held_elsewhere (set_heap (acquire_heap p (heap s)) s) l v.
Proof.
  intros (n & Hl & Hn). unfold held_elsewhere. norm.
  destruct p as [l'|]; [|by exists n]. unfold acquire_heap.
  destruct (heap s !! l') as [c|] eqn:Hc; [|by exists n].
  destruct (decide (l' = l)) as [->|Hne].
  - exists (S n). rewrite lookup_insert_eq. simplify_eq. cbn [object use_count].
    split; [done|]. case_decide; lia.
  - exists n. by rewrite lookup_insert_ne.
Qed.

Lemma acquire_new_holder s l v n :
  heap s !! l = Some (Shared v n) → 1 ≤ n →
  held_elsewhere (set_heap (acquire_heap (Some l) (heap s)) s) l v.
Proof.
  intros Hl Hn. exists (S n). norm. unfold acquire_heap. rewrite Hl, lookup_insert_eq.
  split; [done|]. case_decide; lia.
Qed.

Lemma acquire_storage_ok s p :
  storage_ok s → storage_ok (set_heap (acquire_heap p (heap s)) s).
Proof.
  intros Hok l Hl. norm. cbn [_storage set_heap] in Hl.
  destruct (Hok l Hl) as (c & Hc & Hn).
  destruct p as [l'|]; [|by exists c]. unfold acquire_heap.
  destruct (heap s !! l') as [c'|] eqn:Hc'; [|by exists c].
  destruct (decide (l' = l)) as [->|Hne].
  - rewrite lookup_insert_eq. eexists. split; [done|]. cbn. lia.
  - rewrite lookup_insert_ne by done. by exists c.
Qed.

Lemma acquire_wf s p : wf s → wf (set_heap (acquire_heap p (heap s)) s).
Proof.
  intros [Hok (l0 & He & Hheld)]. split; [by apply acquire_storage_ok|].
  exists l0. split; [done|]. by apply acquire_held.
Qed.

Lemma acquire_contents s p :
  contents (set_heap (acquire_heap p (heap s)) s) = contents s.
Proof.
  unfold contents. norm. destruct (_storage s) as [l|]; [|done].
  destruct p as [l'|]; [|done]. unfold acquire_heap.
  destruct (heap s !! l') as [c'|] eqn:Hc'; [|done].
  destruct (decide (l' = l)) as [->|Hne].
  - by rewrite lookup_insert_eq, Hc'.
  - by rewrite lookup_insert_ne.
Qed.

Lemma read_only_copy_captures s b :
  wf s →
  ∃ l s1, read_only_copy s b = (Returned (Readonly (Some l)), s1, b) ∧
          wf s1 ∧ held_elsewhere s1 l (contents s) ∧
          (_storage s = None → _empty_storage s = Some l).
Proof.
  intros Hwf. pose proof Hwf as [Hok (l0 & He & Hheld)].
  unfold read_only_copy, readonly_vector_assign, bind, field, acquire, ret.
  rewrite He. destruct (_storage s) as [l|] eqn:Hs.
  - destruct (Hok l Hs) as ([v n] & Hl & Hn). cbn in Hn.
    exists l. eexists. split; [done|]. split; [by apply acquire_wf|].
    split; [|done]. unfold contents. rewrite Hs, Hl. cbn [object].
    by eapply acquire_new_holder.
  - exists l0. eexists. split; [done|]. split; [by apply acquire_wf|].
    split; [|done]. unfold contents. rewrite Hs. by apply acquire_held.
Qed.

Lemma begin_captures s b l :
  wf s → _storage s = Some l →
  ∃ s1, begin s b =
          (Returned (Iterator (Some l) (ConstIterator (Some l) 0)
                       (ConstIterator (Some l) (Z.of_nat (length (contents s))))),
           s1, b) ∧
        wf s1 ∧ held_elsewhere s1 l (contents s) ∧ contents s1 = contents s.
Proof.
  intros Hwf Hs. pose proof Hwf as [Hok _].
  destruct (Hok l Hs) as ([v n] & Hl & Hn). cbn in Hn.
  unfold begin, std_size, load, bind, field, acquire, ret, contents.
  rewrite Hs, Hl. cbn [object]. eexists. split; [done|].
  split; [by apply acquire_wf|]. split; [by eapply acquire_new_holder|].
  pose proof (acquire_contents s (Some l)) as Hc. unfold contents in Hc.
  by rewrite Hc, Hs, Hl.
Qed.

Lemma begin_null s b :
  _storage s = None → begin s b = (Returned iterator_default, s, b).
Proof. intros Hs. unfold begin, bind, field, ret. by rewrite Hs. Qed.

(** ** Observing a snapshot *)

Lemma view_reads S s l v n b :
  readonly_storage S = Some l → heap s !! l = Some (Shared v n) →
  readonly_vector_size S s b = (Returned (length v), s, b) ∧
  readonly_vector_empty S s b = (Returned (match v with [] => true | _ => false end), s, b) ∧
  ∀ pos, readonly_vector_at S pos s b =
           (match v !! pos with Some x => Returned x | None => Thrown out_of_range end, s, b).
Proof.
  intros HS Hl.
  unfold readonly_vector_size, readonly_vector_empty, readonly_vector_at,
    std_size, std_empty, std_at, load, bind, field, ret, throw.
  rewrite HS, Hl. cbn [object]. repeat split. intros pos. by destruct (_ !! pos).
Qed.

Lemma view_observes S s l v b :
  readonly_storage S = Some l → held_elsewhere s l v →
  readonly_vector_size S s b = (Returned (length v), s, b) ∧
  readonly_vector_empty S s b = (Returned (match v with [] => true | _ => false end), s, b) ∧
  ∀ pos, readonly_vector_at S pos s b =
           (match v !! pos with Some x => Returned x | None => Thrown out_of_range end, s, b).
Proof. intros HS (n & Hl & _). by eapply view_reads. Qed.

Lemma advance_it k it :
  advance k it = Iterator (iterator_storage it)
                   (ConstIterator (base (_it it)) (offset (_it it) + Z.of_nat k))
                   (_end it).
Proof.
  induction k as [|k IH].
  - destruct it as [p [bs off] e]. cbn. by rewrite Z.add_0_r.
  - cbn [advance]. rewrite IH.
    unfold operator_pre_inc, next. cbn. do 2 f_equal. lia.
Qed.

Lemma iterator_observes s l v k b :
  held_elsewhere s l v →
  let it := Iterator (Some l) (ConstIterator (Some l) 0)
              (ConstIterator (Some l) (Z.of_nat (length v))) in
  operator_ne (advance k it) iterator_default = bool_decide (k ≠ length v) ∧
  operator_deref (advance k it) s b =
    (match v !! k with Some x => Returned x | None => Undefined end, s, b).
Proof.
  intros (n & Hl & _) it. rewrite advance_it. subst it. cbn. split.
  - unfold operator_ne, operator_eq. cbn.
    destruct (decide (k = length v)) as [->|Hne].
    + by rewrite bool_decide_eq_true_2, bool_decide_eq_false_2 by (try intros ?; done).
    + rewrite bool_decide_eq_false_2, bool_decide_eq_true_2; [done..|].
      intros [= ?]. lia.
  - unfold operator_deref. cbn. rewrite decide_True by lia.
    unfold std_deref, load, bind, field, ret, undefined. rewrite Hl. cbn [object].
    rewrite Z.add_0_l, Nat2Z.id. by destruct (_ !! k).
Qed.

Lemma spec_returns {A} (m : M A) s Q E :
  spec m s Q E → ∃ a s', m s None = (Returned a, s', None) ∧ Q a s'.
Proof.
  intros Hm. specialize (Hm None).
  destruct (m s None) as [[[a|e|] s'] b']; [|by destruct Hm|done].
  destruct Hm as [HQ Hb]. rewrite Hb by done. eauto.
Qed.

Lemma spec_thrown {A} (m : M A) s Q E b e s' b' :
  spec m s Q E → m s b = (Thrown e, s', b') → E s'.
Proof. intros Hm Hrun. specialize (Hm b). rewrite Hrun in Hm. by destruct Hm. Qed.

Lemma filter_sublist (f : T → bool) v : sublist (List.filter f v) v.
Proof.
  induction v as [|x v IH]; simpl; [constructor|].
  destruct (f x); by constructor.
Qed.

(** ** The queries, run without interference *)

Lemma release_acquire h l v n :
  h !! l = Some (Shared v n) → 1 ≤ n →
  release_heap (Some l) (acquire_heap (Some l) h) = h.
Proof.
  intros Hl Hn. unfold acquire_heap, release_heap. rewrite Hl, lookup_insert_eq.
  cbn [object use_count]. rewrite decide_False by lia.
  rewrite insert_insert_eq, Nat.sub_succ, Nat.sub_0_r. by apply insert_id.
Qed.

Lemma spec_scan_exists predicate elems s Q E :
  E s → Q (existsb predicate elems) s → spec (scan_exists predicate elems) s Q E.
Proof.
  intros HE. induction elems as [|x elems IH]; simpl; intros HQ.
  - by apply spec_ret.
  - apply spec_bind, spec_call; [done|].
    destruct (predicate x); simpl in HQ; [by apply spec_ret|by apply IH].
Qed.

Lemma spec_scan_find predicate default_value elems s Q E :
  E s → Q (default default_value (List.find predicate elems)) s →
  spec (scan_find predicate elems default_value) s Q E.
Proof.
  intros HE. induction elems as [|x elems IH]; simpl; intros HQ.
  - by apply spec_ret.
  - apply spec_bind, spec_call; [done|].
    destruct (predicate x); simpl in HQ; [by apply spec_ret|by apply IH].
Qed.

Lemma find_app (f : T → bool) v1 v2 :
  List.find f (v1 ++ v2)
  = match List.find f v1 with Some y => Some y | None => List.find f v2 end.
Proof. induction v1 as [|x v1 IH]; simpl; [done|]. by destruct (f x). Qed.

Lemma find_reverse (f : T → bool) v :
  List.find f (reverse v) = find_last_match f v.
Proof.
  induction v as [|x v IH]; simpl; [done|].
  rewrite reverse_cons, find_app, IH. simpl.
  destruct (find_last_match f v); [done|]. by destruct (f x).
Qed.

(** A query that captures the storage, scans it and drops the capture. *)
Lemma spec_query {A} (captured : TStoragePtr → M A) (on_empty : A)
    (scan : list T → A) s :
  wf s →
  (∀ h e, captured None (State None h e) = ret on_empty (State None h e)) →
  (∀ l v n h e Q E,
     h !! l = Some (Shared v n) → E (State (Some l) h e) →
     Q (match v with [] => on_empty | _ => scan v end) (State (Some l) h e) →
     spec (captured (Some l)) (State (Some l) h e) Q E) →
  spec (storage_copy ← copy; scoped storage_copy (captured storage_copy)) s
    (λ r s', r = match contents s with [] => on_empty | _ => scan (contents s) end ∧ s' = s)
    (λ s', s' = s).
Proof.
  destruct s as [p h e]. intros [Hok _] Hnull Hsome. unfold copy.
  apply spec_bind, spec_bind, spec_field. norm.
  apply spec_bind, spec_acquire. norm. apply spec_ret, spec_scoped.
  destruct p as [l|].
  - destruct (storage_ok_lookup _ _ _ Hok) as (v & n & Hl & Hn).
    pose proof (release_acquire h l v n Hl Hn) as Hback.
    assert (Hl' : acquire_heap (Some l) h !! l = Some (Shared v (S n))).
    { unfold acquire_heap. by rewrite Hl, lookup_insert_eq. }
    eapply Hsome; [done|..]; norm; rewrite Hback; [done|].
    by erewrite contents_eq by done.
  - intros b. rewrite Hnull. by cbn.
Qed.


(** Without interference, [exists] tells whether an element satisfies
    the predicate and leaves the state as it was. *)
Lemma exists_sequential predicate s :
  wf s → exists_ predicate s None = (Returned (existsb predicate (contents s)), s, None).
Proof.
  intros Hwf.
  assert (Hspec : spec (exists_ predicate) s
            (λ r s', r = match contents s with [] => false | _ => (existsb predicate) (contents s) end ∧ s' = s)
            (λ s', s' = s)).
  { apply (spec_query (exists_captured predicate) (false) (existsb predicate) s Hwf); [done|].
    intros l v n h e Q E Hl HE HQ. cbn beta in HQ.
    unfold exists_captured. apply spec_bind, spec_field. norm.
    apply spec_bind. eapply spec_std_empty; [look|]. norm.
    destruct v as [|x v']; [by apply spec_ret|].
    apply spec_bind. eapply spec_load; [look|]. norm.
    by apply spec_scan_exists. }
  destruct (spec_returns _ _ _ _ Hspec) as (r & s' & Hrun & -> & ->).
  rewrite Hrun. by destruct (contents s).
Qed.

(** Without interference, [find_first] returns the first element that
    satisfies the predicate, and the default when there is none. *)
Lemma find_first_sequential predicate default_value s :
  wf s →
  find_first predicate default_value s None
  = (Returned (default default_value (List.find predicate (contents s))), s, None).
Proof.
  intros Hwf.
  assert (Hspec : spec (find_first predicate default_value) s
            (λ r s', r = match contents s with [] => default_value | _ => (λ v, default default_value (List.find predicate v)) (contents s) end ∧ s' = s)
            (λ s', s' = s)).
  { apply (spec_query (find_first_captured predicate default_value) (default_value) (λ v, default default_value (List.find predicate v)) s Hwf); [done|].
    intros l v n h e Q E Hl HE HQ. cbn beta in HQ.
    unfold find_first_captured. apply spec_bind, spec_field. norm.
    apply spec_bind. eapply spec_std_empty; [look|]. norm.
    destruct v as [|x v']; [by apply spec_ret|].
    apply spec_bind. eapply spec_load; [look|]. norm.
    by apply spec_scan_find. }
  destruct (spec_returns _ _ _ _ Hspec) as (r & s' & Hrun & -> & ->).
  rewrite Hrun. by destruct (contents s).
Qed.

(** Without interference, [find_last] returns the last element that
    satisfies the predicate, and the default when there is none. *)
Lemma find_last_sequential predicate default_value s :
  wf s →
  find_last predicate default_value s None
  = (Returned (default default_value (find_last_match predicate (contents s))), s, None).
Proof.
  intros Hwf.
  assert (Hspec : spec (find_last predicate default_value) s
            (λ r s', r = match contents s with [] => default_value | _ => (λ v, default default_value (find_last_match predicate v)) (contents s) end ∧ s' = s)
            (λ s', s' = s)).
  { apply (spec_query (find_last_captured predicate default_value) (default_value) (λ v, default default_value (find_last_match predicate v)) s Hwf); [done|].
    intros l v n h e Q E Hl HE HQ. cbn beta in HQ.
    unfold find_last_captured. apply spec_bind, spec_field. norm.
    apply spec_bind. eapply spec_std_empty; [look|]. norm.
    destruct v as [|x v'] eqn:Hv; [by apply spec_ret|]. rewrite <- Hv in *.
    apply spec_bind. eapply spec_load; [look|]. norm.
    apply spec_scan_find; [done|]. rewrite find_reverse. by rewrite Hv in *. }
  destruct (spec_returns _ _ _ _ Hspec) as (r & s' & Hrun & -> & ->).
  rewrite Hrun. by destruct (contents s).
Qed.

(** Where the remove family does reset the handle: [removeFirst] and
    [removeLast] always, [remove] when it is not the sole holder. *)
Lemma remove_family_resets_elsewhere predicate s s' :
  wf s → contents s' = [] →
  (removeFirst predicate s None = (Returned true, s', None) → _storage s' = None) ∧
  (removeLast predicate s None = (Returned true, s', None) → _storage s' = None) ∧
  (∀ n, ¬ sole_holder s → 0 < n →
        remove predicate s None = (Returned n, s', None) → _storage s' = None).
Proof.
  intros Hwf Hnil. split; [|split].
  - intros Hrun. pose proof (removeFirst_spec predicate s Hwf None) as Hspec.
    rewrite Hrun in Hspec. destruct Hspec as [(_ & _ & _ & Hnull) _]. by apply Hnull.
  - intros Hrun. pose proof (removeLast_spec predicate s Hwf None) as Hspec.
    rewrite Hrun in Hspec. destruct Hspec as [(_ & _ & _ & Hnull) _]. by apply Hnull.
  - intros n Hshared Hn Hrun. pose proof (remove_spec predicate s Hwf None) as Hspec.
    rewrite Hrun in Hspec. destruct Hspec as [(_ & _ & _ & Hnull) _]. by apply Hnull.
Qed.

Lemma initial_state_wf : wf (T := T) initial_state.
Proof.
  split; [by intros l [=]|]. exists 1%positive. split; [done|].
  exists 1. split; [done|]. by rewrite decide_False.
Qed.

(** * The claims *)


(** C2. Sequential consistency.  With no snapshot, view or sibling
    container outstanding, a sequence of mutating calls, none of which
    fails, leaves the container with the elements the same operations
    leave in a plain sequence. *)
Theorem sequential_consistency (ops : list operation) s :
  wf s → unshared s →
  ∃ s', run_seq ops s = Some s' ∧
        contents s' = foldl (λ v o, reference o v) (contents s) ops.
Proof.
  intros Hwf Hun.
  destruct (run_seq_contents ops s Hwf Hun) as (s' & Hrun & _ & _ & Hc). eauto.
Qed.

(** C3. [remove(predicate)] returns the number of elements that satisfy
    the predicate at the call; afterwards the container holds the
    elements that do not satisfy it, in their original order, whether the
    storage was mutated in place or copied. *)
Theorem remove_count_and_contents (predicate : T → bool) s :
  wf s →
  ∃ s', remove predicate s None
          = (Returned (length (List.filter predicate (contents s))), s', None) ∧
        contents s' = List.filter (λ x, negb (predicate x)) (contents s) ∧
        (∀ x, x ∈ contents s' → predicate x = false) ∧
        sublist (contents s') (contents s).
Proof.
  intros Hwf.
  destruct (spec_returns _ _ _ _ (remove_spec predicate s Hwf))
    as (r & s' & Hrun & _ & -> & Hc & _).
  exists s'. split; [done|]. split; [done|]. rewrite Hc. split.
  - intros x Hx. apply list_elem_of_In, List.filter_In in Hx as [_ Hx].
    by apply negb_true_iff.
  - apply filter_sublist.
Qed.

(** C6. A mutating call on a container that is not the sole holder of
    its storage is all-or-nothing: if it leaves by an exception, the
    handle, the storages and their reference counts are what they were
    before the call. *)
Theorem copy_and_swap_all_or_nothing (o : operation) s b e s' b' :
  wf s → ¬ sole_holder s →
  run o s b = (Thrown e, s', b') →
  s' = s.
Proof.
  intros Hwf Hshared Hrun.
  destruct (spec_thrown _ _ _ _ _ _ _ _ (run_spec o s Hwf) Hrun) as [_ Hsame].
  by apply Hsame.
Qed.

(** C7, as amended.  [begin()] yields a bound iterator exactly when the
    handle is not null: it then holds the captured handle, a cursor at the
    first element and the captured end position.  On a null handle
    [begin()] yields the sentinel, as [end()] and default construction
    always do. *)
Theorem begin_bound_unless_null s :
  wf s →
  (∀ l, _storage s = Some l →
     ∃ s', begin s None =
             (Returned (Iterator (Some l) (ConstIterator (Some l) 0)
                          (ConstIterator (Some l) (Z.of_nat (length (contents s))))),
              s', None) ∧
           contents s' = contents s) ∧
  (_storage s = None → begin s None = (Returned iterator_default, s, None)) ∧
  end_ s None = (Returned iterator_default, s, None) ∧
  iterator_storage iterator_default = None.
Proof.
  intros Hwf. split; [|split; [apply begin_null|done]].
  intros l Hs. destruct (begin_captures s None l Hwf Hs) as (s' & Hb & _ & _ & Hc). eauto.
Qed.

(** C8. Equality of snapshot iterators: two sentinels are equal; a bound
    iterator equals a sentinel, on either side, exactly when its cursor is
    at its captured end; two bound iterators are equal exactly when their
    cursors are; [operator!=] is the negation. *)
Theorem iterator_equality :
  (∀ it1 e1 it2 e2,
     operator_eq (Iterator None it1 e1) (Iterator None it2 e2) = true) ∧
  (∀ l it1 e1 it2 e2,
     operator_eq (Iterator (Some l) it1 e1) (Iterator None it2 e2) = true ↔ it1 = e1) ∧
  (∀ l it1 e1 it2 e2,
     operator_eq (Iterator None it2 e2) (Iterator (Some l) it1 e1) = true ↔ it1 = e1) ∧
  (∀ l1 l2 it1 e1 it2 e2,
     operator_eq (Iterator (Some l1) it1 e1) (Iterator (Some l2) it2 e2) = true
     ↔ it1 = it2) ∧
  (∀ this right, operator_ne this right = negb (operator_eq this right)).
Proof.
  repeat split; try done; unfold operator_eq; cbn; rewrite bool_decide_eq_true; done.
Qed.

(** C9. [read_only_copy()] of a container whose handle is null yields a
    view that is not null, of size 0 and empty; and on a view of a storage
    with elements [v], [at(pos)] throws [out_of_range] exactly when
    [pos >= size], and returns the element at [pos] otherwise. *)
Theorem read_only_copy_null_and_at s0 s (S : readonly_vector) l v n pos :
  wf s0 → _storage s0 = None →
  readonly_storage S = Some l → heap s !! l = Some (Shared v n) →
  (∃ S0 s1,
     read_only_copy s0 None = (Returned S0, s1, None) ∧
     readonly_storage S0 ≠ None ∧
     observe (readonly_vector_size S0) s1 = Returned 0 ∧
     observe (readonly_vector_empty S0) s1 = Returned true) ∧
  observe (readonly_vector_size S) s = Returned (length v) ∧
  (observe (readonly_vector_at S pos) s = Thrown out_of_range ↔ length v ≤ pos) ∧
  (∀ x, v !! pos = Some x → observe (readonly_vector_at S pos) s = Returned x) ∧
  (pos < length v → ∃ x, v !! pos = Some x ∧
                         observe (readonly_vector_at S pos) s = Returned x).
Proof.
  intros Hwf Hnull HS Hl. split.
  - destruct (read_only_copy_captures s0 None Hwf) as (l0 & s1 & Hcopy & _ & Hheld & _).
    exists (Readonly (Some l0)), s1. split; [done|]. split; [done|].
    assert (Hc : contents s0 = []) by (unfold contents; by rewrite Hnull).
    rewrite Hc in Hheld.
    destruct (view_observes (Readonly (Some l0)) s1 l0 [] None eq_refl Hheld)
      as (Hsz & Hem & _).
    unfold observe. by rewrite Hsz, Hem.
  - destruct (view_reads S s l v n None HS Hl) as (Hsz & _ & Hat).
    unfold observe. rewrite Hsz, Hat. cbn [fst]. split; [done|].
    destruct (v !! pos) as [x|] eqn:Hpos.
    + pose proof (lookup_lt_Some _ _ _ Hpos). repeat split.
      all: try (intros; simplify_eq; (done || lia)).
      eauto.
    + pose proof (lookup_ge_None_1 _ _ Hpos). repeat split.
      all: intros; simplify_eq; (done || lia).
Qed.

(** C10. On a bound iterator that is not at its end, postfix [++] (and
    postfix [--]) moves the cursor and returns the iterator as it is after
    the move: the value returned equals the iterator after the call and
    differs from the iterator before it. *)
Theorem postfix_returns_moved_iterator (this : iterator) l s b :
  iterator_storage this = Some l → _it this ≠ _end this →
  (∃ this' s',
     operator_post_inc this s b = (Returned (this', this'), s', b) ∧
     _it this' = next (_it this) ∧
     iterator_storage this' = iterator_storage this ∧
     _end this' = _end this ∧
     operator_eq this' this' = true ∧
     operator_eq this' this = false) ∧
  (∃ this' s',
     operator_post_dec this s b = (Returned (this', this'), s', b) ∧
     _it this' = prev (_it this) ∧
     iterator_storage this' = iterator_storage this ∧
     _end this' = _end this ∧
     operator_eq this' this' = true ∧
     operator_eq this' this = false).
Proof.
  intros Hbound _. destruct this as [p [bs off] e]. cbn in Hbound. subst p.
  split; eexists _, _; (split; [reflexivity|]); cbn; repeat split.
  all: unfold operator_eq, next, prev; cbn.
  all: first [ by rewrite bool_decide_eq_true
             | rewrite bool_decide_eq_false; intros [= ?]; lia ].
Qed.

End reasoning.

(** * The claims on concrete containers *)

Lemma one_element_reached :
  run_seq [op_push_back 7] initial_state = Some one_element.
Proof. vm_compute. reflexivity. Qed.

Lemma two_elements_reached :
  run_seq [op_push_back 1; op_emplace_back 2] initial_state = Some two_elements.
Proof. vm_compute. reflexivity. Qed.

Lemma shared_pair_reached :
  copy_construct two_elements None = (Returned (Some 2%positive), shared_pair, None).
Proof. vm_compute. reflexivity. Qed.

Lemma example_wf (v : list nat) n :
  1 ≤ n →
  wf (State (Some 2%positive)
        {[ 1%positive := Shared [] 1; 2%positive := Shared v n ]}
        (Some 1%positive)).
Proof.
  intros Hn. split.
  - intros l [= <-]. by exists (Shared v n).
  - exists 1%positive. split; [done|]. exists 1. split; [done|].
    by rewrite decide_False.
Qed.

Lemma shared_pair_not_sole_holder : ¬ sole_holder shared_pair.
Proof. intros (l & v & [= <-] & Hl). vm_compute in Hl. discriminate. Qed.

Lemma two_elements_unshared : unshared two_elements.
Proof. intros l c [= <-] Hl. vm_compute in Hl. by simplify_eq. Qed.

(** ** The usage example, step by step *)

(** [D] is copy-constructed from the container holding [1; 2];
    [D.push_front(3)] gives [D] the elements [3; 1; 2] in a new storage and
    leaves the original's storage alone. *)
Example copy_then_push_front :
  ∃ s', push_front 3 shared_pair None = (Returned (), s', None) ∧
        contents s' = [3; 1; 2] ∧
        heap s' !! 2%positive = Some (Shared [1; 2] 1).
Proof. eexists. vm_compute. repeat split. Qed.

(** [remove(v == 3 || v == 2)] on [3; 1; 2] returns 2 and leaves [1]. *)
Example remove_two_of_three :
  ∃ s1 s2, push_front 3 shared_pair None = (Returned (), s1, None) ∧
           remove is_2_or_3 s1 None = (Returned 2, s2, None) ∧
           contents s2 = [1].
Proof. eexists _, _. vm_compute. repeat split. Qed.

(** Iteration stability: a traversal begun on [1; 2] still visits 1 and
    then 2 after [remove(v == 2)] and [push_front(2)], while the container
    ends as [2; 1]. *)
Example iteration_stability :
  ∃ s1 s2,
    begin two_elements None = (Returned pair_begin, s1, None) ∧
    run_seq [op_remove is_2; op_push_front 2] s1 = Some s2 ∧
    contents s2 = [2; 1] ∧
    observe (operator_deref pair_begin) s2 = Returned 1 ∧
    observe (operator_deref (operator_pre_inc pair_begin)) s2 = Returned 2 ∧
    operator_ne (advance 1 pair_begin) iterator_default = true ∧
    operator_ne (advance 2 pair_begin) iterator_default = false.
Proof. eexists _, _. vm_compute. repeat split. Qed.

(** ** The claims that fail, at a failing input *)

(** C4, at a failing input.  The sole-holder branch of [remove] erases
    in place and never resets the handle: removing the only element
    leaves an allocated, empty storage behind a handle that is not null. *)
Theorem remove_in_place_keeps_empty_storage :
  sole_holder one_element ∧
  remove (λ _, true) one_element None
  = (Returned 1,
     State (Some 2%positive)
       {[ 1%positive := Shared [] 1; 2%positive := Shared [] 1 ]}
       (Some 1%positive),
     None).
Proof. split; [by exists 2%positive, [7]|]. vm_compute. reflexivity. Qed.

(** C5, at a failing input.  After [storage_copy = copy()] captured the
    storage holding [7], [exists] tests [_storage->empty()] on the live
    field.  With the field unchanged it finds [7].  With the field reset
    by a [clear()] in between, it dereferences a null pointer, and so do
    [find_first] and [find_last].  With the field pointing by then to
    another, empty storage, it answers [false] though the captured
    storage holds [7]. *)
Theorem exists_reads_live_field :
  ∃ captured cleared emptied,
    copy one_element None = (Returned (Some 2%positive), captured, None) ∧
    clear captured None = (Returned (), cleared, None) ∧
    run_seq [op_push_back 9; op_remove (λ _, true)] cleared = Some emptied ∧
    _storage cleared = None ∧
    heap cleared !! 2%positive = Some (Shared [7] 1) ∧
    _storage emptied = Some 3%positive ∧
    heap emptied !! 2%positive = Some (Shared [7] 1) ∧
    heap emptied !! 3%positive = Some (Shared [] 1) ∧
    observe (exists_captured is_7 (Some 2%positive)) captured = Returned true ∧
    observe (exists_captured is_7 (Some 2%positive)) cleared = Undefined ∧
    observe (find_first_captured is_7 0 (Some 2%positive)) cleared = Undefined ∧
    observe (find_last_captured is_7 0 (Some 2%positive)) cleared = Undefined ∧
    observe (exists_captured is_7 (Some 2%positive)) emptied = Returned false.
Proof. eexists _, _, _. vm_compute. repeat split. Qed.

(** C7 as stated fails: on a container whose handle is null, [begin()]
    yields the sentinel, not a bound iterator. *)
Lemma begin_of_null_handle_is_sentinel :
  wf (T := nat) initial_state ∧
  _storage (T := nat) initial_state = None ∧
  begin (T := nat) initial_state None = (Returned iterator_default, initial_state, None) ∧
  iterator_storage iterator_default = None ∧
  ¬ (∀ s : @state nat, wf s →
       ∃ it s', begin s None = (Returned it, s', None) ∧ iterator_storage it ≠ None).
Proof.
  split; [apply initial_state_wf|]. repeat split.
  intros Hall. destruct (Hall initial_state initial_state_wf) as (it & s' & Hb & Hne).
  rewrite begin_null in Hb by done. by simplify_eq.
Qed.



Lemma sequential_consistency_witness :
  wf two_elements ∧ unshared two_elements ∧
  ∃ s', run_seq [op_push_front 3; op_remove is_2_or_3; op_push_back 7;
                 op_removeFirst is_7; op_removeLast (λ _, true); op_clear;
                 op_emplace_back 4] two_elements = Some s' ∧
        contents s' = [4].
Proof.
  assert (Hwf : wf two_elements) by (apply example_wf; lia).
  split; [exact Hwf|]. split; [exact two_elements_unshared|].
  exact (sequential_consistency
           [op_push_front 3; op_remove is_2_or_3; op_push_back 7;
            op_removeFirst is_7; op_removeLast (λ _, true); op_clear;
            op_emplace_back 4] two_elements Hwf two_elements_unshared).
Defined.

Lemma remove_count_and_contents_witness :
  wf shared_pair ∧
  ∃ s', remove is_2_or_3 shared_pair None = (Returned 1, s', None) ∧
        contents s' = [1] ∧
        (∀ x, x ∈ contents s' → is_2_or_3 x = false) ∧
        sublist (contents s') [1; 2].
Proof.
  assert (Hwf : wf shared_pair) by (apply example_wf; lia).
  split; [exact Hwf|].
  exact (remove_count_and_contents is_2_or_3 shared_pair Hwf).
Defined.

Lemma copy_and_swap_all_or_nothing_witness :
  wf shared_pair ∧ ¬ sole_holder shared_pair ∧
  ∃ s' b',
    run (op_push_back 3) shared_pair (Some 3) = (Thrown construction_failure, s', b') ∧
    s' = shared_pair.
Proof.
  assert (Hwf : wf shared_pair) by (apply example_wf; lia).
  split; [exact Hwf|]. split; [exact shared_pair_not_sole_holder|].
  exists (run (op_push_back 3) shared_pair (Some 3)).1.2,
         (run (op_push_back 3) shared_pair (Some 3)).2.
  split; [vm_compute; reflexivity|].
  apply (copy_and_swap_all_or_nothing (op_push_back 3) shared_pair (Some 3)
           construction_failure _ (run (op_push_back 3) shared_pair (Some 3)).2
           Hwf shared_pair_not_sole_holder).
  vm_compute. reflexivity.
Defined.

Lemma begin_bound_unless_null_witness :
  wf two_elements ∧
  ∃ s', begin two_elements None = (Returned pair_begin, s', None) ∧
        contents s' = [1; 2].
Proof.
  assert (Hwf : wf two_elements) by (apply example_wf; lia).
  split; [exact Hwf|].
  exact (proj1 (begin_bound_unless_null two_elements Hwf) 2%positive eq_refl).
Defined.

Lemma read_only_copy_null_and_at_witness :
  wf (T := nat) initial_state ∧ _storage (T := nat) initial_state = None ∧
  readonly_storage (Readonly (Some 2%positive)) = Some 2%positive ∧
  heap two_elements !! 2%positive = Some (Shared [1; 2] 1) ∧
  (∃ S0 s1,
     read_only_copy (T := nat) initial_state None = (Returned S0, s1, None) ∧
     readonly_storage S0 ≠ None ∧
     observe (readonly_vector_size S0) s1 = Returned 0 ∧
     observe (readonly_vector_empty S0) s1 = Returned true) ∧
  (observe (readonly_vector_at (Readonly (Some 2%positive)) 2) two_elements
     = Thrown out_of_range ↔ 2 ≤ 2).
Proof.
  split; [exact initial_state_wf|]. split; [reflexivity|].
  split; [reflexivity|]. split; [reflexivity|].
  pose proof (read_only_copy_null_and_at initial_state two_elements
                (Readonly (Some 2%positive)) 2%positive [1; 2] 1 2
                initial_state_wf eq_refl eq_refl eq_refl) as (Hnull & _ & Hat & _).
  split; [exact Hnull|exact Hat].
Defined.

Lemma postfix_returns_moved_iterator_witness :
  iterator_storage pair_begin = Some 2%positive ∧ _it pair_begin ≠ _end pair_begin ∧
  ∃ this' s',
    operator_post_inc pair_begin two_elements None = (Returned (this', this'), s', None) ∧
    _it this' = ConstIterator (Some 2%positive) 1 ∧
    operator_eq this' pair_begin = false.
Proof.
  split; [reflexivity|]. split; [discriminate|].
  destruct (postfix_returns_moved_iterator pair_begin 2%positive two_elements None eq_refl)
    as [(this' & s' & Hrun & Hit & _ & _ & _ & Hne) _]; [discriminate|].
  exists this', s'. split; [exact Hrun|]. split; [exact Hit|exact Hne].
Defined.

(** * The calls, exactly

    Sharper postconditions for the mutating calls: which storage each
    writes, and that a failing call leaves the state as it found it. *)

Ltac same := norm; rewrite ?insert_insert_eq, ?release_unpublished by done; reflexivity.

Section more_reasoning.
Context {T : Type}.
Local Open Scope cow_scope.
Local Abbreviation M := (@M T).
Local Abbreviation state := (@state T).
Implicit Types (s : state) (h : gmap positive (@shared T)) (v : list T).

Lemma release_shared h l v n :
  h !! l = Some (Shared v n) → 2 ≤ n →
  release_heap (Some l) h = <[l := Shared v (n - 1)]> h.
Proof.
  intros Hl Hn. unfold release_heap. rewrite Hl. cbn [object use_count].
  by rewrite decide_False by lia.
Qed.

Lemma release_last h l v :
  h !! l = Some (Shared v 1) → release_heap (Some l) h = delete l h.
Proof. intros Hl. unfold release_heap. by rewrite Hl. Qed.

(** [push_back], exactly. *)
Lemma push_back_exact t s :
  wf s →
  spec (push_back t) s (λ _ s', written s s' (contents s ++ [t])) (λ s', s' = s).
Proof.
  destruct s as [p h e]. intros [Hok _]. unfold push_back, written.
  apply spec_bind, spec_field. cbn [_storage heap _empty_storage].
  destruct p as [l|].
  - destruct (storage_ok_lookup _ _ _ Hok) as (v & n & Hl & Hn).
    apply spec_bind. eapply spec_get_use_count; [look|]. norm.
    erewrite contents_eq by done.
    destruct (decide (n = 1)) as [Hn1|Hn1].
    + subst n. eapply spec_std_push_back; [look|done|]. norm.
      exists v, 1. by rewrite decide_True.
    + apply spec_bind, spec_new_TStorage; [done|].
      intros l' Hl'. norm. pose proof (fresh_ne _ _ _ _ Hl Hl') as Hne.
      apply spec_scoped, spec_bind, spec_bind.
      eapply spec_std_size; [look|]. norm.
      apply spec_bind. eapply spec_std_reserve; [look| |]; [same|].
      apply spec_bind. eapply spec_load; [look|]. norm.
      eapply spec_std_insert_end; [look| |]; [intros acc; same|]. norm.
      rewrite insert_insert_eq.
      apply spec_bind. eapply spec_std_push_back; [look| |]; [same|]. norm.
      rewrite insert_insert_eq.
      apply spec_assign_storage. norm.
      rewrite publish by (done || congruence).
      exists v, n. split; [done|]. rewrite decide_False by done.
      exists l'. split; [done|]. by erewrite release_shared by (done || lia).
  - apply spec_bind, spec_get_use_count_null. norm.
    rewrite decide_False by done.
    apply spec_bind, spec_new_TStorage; [done|].
    intros l' Hl'. norm.
    apply spec_scoped, spec_bind.
    eapply spec_std_reserve; [look| |]; [same|].
    apply spec_bind. eapply spec_std_push_back; [look| |]; [same|]. norm.
    rewrite insert_insert_eq.
    apply spec_assign_storage. norm.
    rewrite publish by done. by exists l'.
Qed.


(** [push_front], exactly. *)
Lemma push_front_exact t s :
  wf s →
  spec (push_front t) s (λ _ s', written s s' (t :: contents s)) (λ s', s' = s).
Proof.
  destruct s as [p h e]. intros [Hok _]. unfold push_front, written.
  apply spec_bind, spec_field. cbn [_storage heap _empty_storage].
  destruct p as [l|].
  - destruct (storage_ok_lookup _ _ _ Hok) as (v & n & Hl & Hn).
    apply spec_bind. eapply spec_get_use_count; [look|]. norm.
    erewrite contents_eq by done.
    destruct (decide (n = 1)) as [Hn1|Hn1].
    + subst n. eapply spec_std_insert_begin; [look|done|]. norm.
      exists v, 1. by rewrite decide_True.
    + apply spec_bind, spec_new_TStorage; [done|].
      intros l' Hl'. norm. pose proof (fresh_ne _ _ _ _ Hl Hl') as Hne.
      apply spec_scoped, spec_bind, spec_bind.
      eapply spec_std_size; [look|]. norm.
      apply spec_bind. eapply spec_std_reserve; [look| |]; [same|].
      apply spec_bind. eapply spec_std_push_back; [look| |]; [same|]. norm.
      rewrite insert_insert_eq.
      apply spec_bind. eapply spec_load; [look|]. norm.
      eapply spec_std_insert_end; [look| |]; [intros acc; same|]. norm.
      rewrite insert_insert_eq.
      apply spec_assign_storage. norm.
      rewrite publish by (done || congruence).
      exists v, n. split; [done|]. rewrite decide_False by done.
      exists l'. split; [done|]. by erewrite release_shared by (done || lia).
  - apply spec_bind, spec_get_use_count_null. norm.
    rewrite decide_False by done.
    apply spec_bind, spec_new_TStorage; [done|].
    intros l' Hl'. norm.
    apply spec_scoped, spec_bind, spec_bind.
    eapply spec_std_reserve; [look| |]; [same|].
    eapply spec_std_push_back; [look| |]; [same|]. norm.
    rewrite insert_insert_eq.
    apply spec_assign_storage. norm.
    rewrite publish by done. by exists l'.
Qed.

(** The in-place loop of [remove], with the states a throwing predicate
    can leave: the elements scanned so far are filtered, the others are as
    they were. *)
Lemma spec_remove_in_place_partial predicate l rest : ∀ pre n count p h e Q E,
  h !! l = Some (Shared (pre ++ rest) n) →
  (∀ rest1 rest2, rest = rest1 ++ rest2 →
     E (State p (<[l := Shared (pre ++ List.filter (λ x, negb (predicate x)) rest1
                                  ++ rest2) n]> h) e)) →
  Q (count + length (List.filter predicate rest))
    (State p (<[l := Shared (pre ++ List.filter (λ x, negb (predicate x)) rest) n]> h) e) →
  spec (remove_in_place predicate (Some l) (length rest) (length pre) count)
       (State p h e) Q E.
Proof.
  induction rest as [|x rest IH]; intros pre n count p h e Q E Hl HE HQ.
  - apply spec_ret. simpl in HQ.
    by rewrite Nat.add_0_r, state_insert_id in HQ.
  - cbn [remove_in_place length]. apply spec_bind.
    eapply spec_std_deref; [done| |].
    { cbn. by rewrite lookup_app_r, Nat.sub_diag. }
    apply spec_bind, spec_call.
    { specialize (HE [] (x :: rest) eq_refl). simpl in HE.
      by rewrite state_insert_id in HE. }
    simpl in HQ. destruct (predicate x) eqn:Hx; simpl in HQ.
    + apply spec_bind. eapply spec_std_erase; [done| |].
      { cbn. rewrite length_app. simpl. lia. }
      norm. replace (delete (length pre) (pre ++ x :: rest)) with (pre ++ rest).
      2:{ by rewrite delete_middle. }
      eapply IH.
      * by rewrite lookup_insert_eq.
      * intros r1 r2 ->. rewrite insert_insert_eq.
        specialize (HE (x :: r1) r2 eq_refl). simpl in HE. by rewrite Hx in HE.
      * by rewrite insert_insert_eq, <- Nat.add_succ_comm in *.
    + replace (S (length pre)) with (length (pre ++ [x])) by (rewrite length_app; simpl; lia).
      eapply IH.
      * by rewrite <- app_assoc.
      * intros r1 r2 ->. specialize (HE (x :: r1) r2 eq_refl). simpl in HE.
        rewrite Hx in HE. simpl in HE. by rewrite <- app_assoc.
      * by rewrite <- app_assoc.
Qed.

(** [remove], exactly: what it returns, the state it leaves, and the
    state a failure leaves. *)
Lemma remove_exact predicate s :
  wf s →
  spec (remove predicate) s
    (λ r s',
       r = length (List.filter predicate (contents s)) ∧
       (r = 0 → s' = s) ∧
       (0 < r → sole_holder s ∨ List.filter (λ x, negb (predicate x)) (contents s) ≠ [] →
        written s s' (List.filter (λ x, negb (predicate x)) (contents s))) ∧
       (0 < r → ¬ sole_holder s →
        List.filter (λ x, negb (predicate x)) (contents s) = [] →
        s' = State None (release_heap (_storage s) (heap s)) (_empty_storage s)))
    (λ s',
       (¬ sole_holder s → s' = s) ∧
       (sole_holder s →
        ∃ k, s' = State (_storage s)
                    (<[default 1%positive (_storage s) :=
                         Shared (List.filter (λ x, negb (predicate x)) (take k (contents s))
                                 ++ drop k (contents s)) 1]> (heap s))
                    (_empty_storage s))).
Proof.
  destruct s as [p h e]. intros [Hok _]. unfold remove.
  apply spec_bind, spec_field. norm.
  destruct p as [l|]; [|apply spec_ret; repeat split; try done; simpl; lia].
  destruct (storage_ok_lookup _ _ _ Hok) as (v & n & Hl & Hn).
  apply spec_bind. eapply spec_std_empty; [look|]. norm.
  erewrite !contents_eq by done.
  destruct v as [|x v'] eqn:Hv.
  { apply spec_ret. repeat split; try done; simpl; lia. }
  rewrite <- Hv in *. assert (Hlen : length v ≠ 0) by (by subst v). clear Hv.
  apply spec_bind. eapply spec_get_use_count; [look|]. norm.
  destruct (decide (n = 1)) as [Hn1|Hn1].
  - subst n. assert (Hsole : sole_holder (State (Some l) h e)) by (by exists l, v).
    apply spec_bind. eapply spec_std_size; [look|]. norm.
    apply (spec_remove_in_place_partial predicate l v [] 1 0); [done| |].
    + intros r1 r2 Hv. split; [done|]. intros _. exists (length r1). cbn.
      by rewrite Hv, take_app_length, drop_app_length.
    + cbn [app Nat.add]. split; [done|]. split; [|split; [|done]].
      * intros Hnone.
        assert (List.filter (λ x, negb (predicate x)) v = v) as ->.
        { apply filter_length_eq. pose proof (List.filter_length predicate v). lia. }
        by rewrite state_insert_id.
      * intros _ _. unfold written. norm. exists v, 1. by rewrite decide_True.
  - pose proof (not_sole_holder_shared _ _ e _ _ Hl Hn1) as Hshared.
    apply spec_bind, spec_new_TStorage; [done|].
    intros l' Hl'. norm. pose proof (fresh_ne _ _ _ _ Hl Hl') as Hne.
    apply spec_scoped, spec_bind.
    eapply spec_std_size; [look|]. norm.
    apply spec_bind. eapply spec_std_reserve; [look| |];
      [norm; rewrite release_unpublished by done; done|].
    apply spec_bind. eapply spec_load; [look|]. norm.
    apply spec_bind. eapply spec_remove_copying; [look| |].
    { intros acc. norm. rewrite insert_insert_eq, release_unpublished by done. done. }
    norm. rewrite insert_insert_eq. cbn [app Nat.add].
    apply spec_bind. eapply spec_std_size; [look|]. norm.
    apply spec_bind. eapply spec_std_size; [look|]. norm.
    pose proof (List.filter_length predicate v) as Hsum.
    case_decide as Hsame.
    + apply spec_ret. norm. rewrite release_unpublished by done.
      split; [done|]. split; [done|]. split; intros; lia.
    + apply spec_bind. eapply spec_std_empty; [look|]. norm.
      destruct (List.filter (λ x, negb (predicate x)) v) as [|y w] eqn:Hw.
      * apply spec_bind, spec_reset_storage. norm. apply spec_ret. norm.
        rewrite release_heap_insert_ne by congruence.
        rewrite release_unpublished by (by rewrite release_heap_lookup_ne by congruence).
        split; [done|]. split; [simpl in *; lia|]. split; [|done].
        intros _ [?|?]; done.
      * apply spec_bind, spec_assign_storage. norm. apply spec_ret. norm.
        rewrite publish by (done || congruence).
        split; [done|]. split; [simpl in *; lia|]. split; [|done].
        intros _ _. unfold written. norm. exists v, n. split; [done|].
        rewrite decide_False by done. exists l'. split; [done|].
        by erewrite release_shared by (done || lia).
Qed.


(** [removeAt], exactly. *)
Lemma removeAt_exact it l v n h e :
  h !! l = Some (Shared v n) → 1 ≤ n → it ≤ length v →
  spec (removeAt it) (State (Some l) h e)
    (λ r s',
       r = bool_decide (it < length v) ∧
       (r = false → s' = State (Some l) h e) ∧
       (r = true → length v = 1 → s' = State None (release_heap (Some l) h) e) ∧
       (r = true → length v ≠ 1 → written (State (Some l) h e) s' (delete it v)))
    (λ s', s' = State (Some l) h e).
Proof.
  intros Hl Hn Hit. unfold removeAt.
  apply spec_bind, spec_field. norm.
  apply spec_bind. eapply spec_std_size; [look|]. norm.
  case_decide as Hend; [|case_decide as Hone].
  - apply spec_ret. rewrite bool_decide_eq_false_2 by lia. by repeat split.
  - apply spec_bind, spec_reset_storage. apply spec_ret.
    rewrite bool_decide_eq_true_2 by lia. by repeat split.
  - apply spec_bind. eapply spec_get_use_count; [look|]. norm.
    assert (Hlt : it < length v) by lia.
    rewrite bool_decide_eq_true_2 by done.
    destruct (decide (n = 1)) as [Hn1|Hn1].
    + subst n. apply spec_bind. eapply spec_std_erase; [look|done|]. norm.
      apply spec_ret. repeat split; try done.
      intros _ _. unfold written. norm. exists v, 1. by rewrite decide_True.
    + apply spec_bind, spec_new_TStorage; [done|].
      intros l' Hl'. norm. pose proof (fresh_ne _ _ _ _ Hl Hl') as Hne.
      apply spec_bind, spec_scoped, spec_bind.
      eapply spec_std_reserve; [look| |]; [same|].
      apply spec_bind. eapply spec_load; [look|]. norm.
      apply spec_bind.
      lazymatch goal with
      | |- spec _ _ ?Q ?E =>
          assert (Hrest : ∀ acc, acc = take it v →
                    Q () (State (Some l) (<[l' := Shared acc 1]> h) e))
      end.
      { intros acc ->. apply spec_bind.
        lazymatch goal with
        | |- spec _ _ ?Q ?E =>
            assert (Hfinal : Q () (State (Some l) (<[l' := Shared (delete it v) 1]> h) e))
        end.
        { apply spec_assign_storage. norm. rewrite publish by (done || congruence).
          apply spec_ret. repeat split; try done.
          intros _ _. unfold written. norm. exists v, n. split; [done|].
          rewrite decide_False by done. exists l'. split; [done|].
          by erewrite release_shared by (done || lia). }
        destruct (decide (S it ≠ length v)) as [Hlast|Hlast].
        - eapply spec_std_insert_end; [look| |]; [intros acc; same|]. norm.
          rewrite insert_insert_eq, <- delete_take_drop. apply Hfinal.
        - apply spec_ret.
          replace (take it v) with (delete it v); [apply Hfinal|].
          rewrite delete_take_drop, drop_ge, app_nil_r by lia. done. }
      destruct (decide (it ≠ 0)) as [Hfirst|Hfirst].
      * eapply spec_std_insert_end; [look| |]; [intros acc; same|]. norm.
        rewrite insert_insert_eq. by apply Hrest.
      * apply spec_ret. apply Hrest. assert (it = 0) as -> by lia. done.
Qed.

Lemma removeFirst_exact predicate s :
  wf s →
  spec (removeFirst predicate) s
    (λ r s',
       r = existsb predicate (contents s) ∧
       (r = false → s' = s) ∧
       (r = true → one_removed s s' (first_match predicate (contents s))))
    (λ s', s' = s).
Proof.
  destruct s as [p h e]. intros [Hok _]. unfold removeFirst, one_removed.
  apply spec_bind, spec_field. norm.
  destruct p as [l|]; [|by apply spec_ret].
  destruct (storage_ok_lookup _ _ _ Hok) as (v & n & Hl & Hn).
  apply spec_bind. eapply spec_std_empty; [look|]. norm.
  erewrite !contents_eq by done.
  destruct v as [|x v'] eqn:Hv; [by apply spec_ret|].
  rewrite <- Hv in *. clear Hv.
  apply spec_bind. eapply spec_load; [look|]. norm.
  apply spec_bind, spec_find_if; [done|]. cbn [Nat.add].
  eapply spec_conseq; [eapply removeAt_exact; [done..|apply first_match_le]| |done].
  intros r s' (-> & Hno & Hone & Hmany). cbn beta.
  assert (Hr : bool_decide (first_match predicate v < length v) = existsb predicate v).
  { apply eq_true_iff_eq. rewrite bool_decide_eq_true. apply first_match_lt. }
  rewrite Hr in *. split; [done|]. split; [done|].
  intros Htrue. destruct (decide (length v = 1)); auto.
Qed.

Lemma removeLast_exact predicate s :
  wf s →
  spec (removeLast predicate) s
    (λ r s',
       r = existsb predicate (contents s) ∧
       (r = false → s' = s) ∧
       (r = true →
        one_removed s s'
          (length (contents s) - first_match predicate (reverse (contents s)) - 1)))
    (λ s', s' = s).
Proof.
  destruct s as [p h e]. intros [Hok _]. unfold removeLast, one_removed.
  apply spec_bind, spec_field. norm.
  destruct p as [l|]; [|by apply spec_ret].
  destruct (storage_ok_lookup _ _ _ Hok) as (v & n & Hl & Hn).
  apply spec_bind. eapply spec_std_empty; [look|]. norm.
  erewrite !contents_eq by done.
  destruct v as [|x v'] eqn:Hv; [by apply spec_ret|].
  rewrite <- Hv in *. clear Hv.
  apply spec_bind. eapply spec_load; [look|]. norm.
  apply spec_bind, spec_find_if; [done|]. cbn [Nat.add].
  pose proof (first_match_le predicate (reverse v)) as Hle.
  pose proof (first_match_lt predicate (reverse v)) as Hlt.
  rewrite length_reverse in Hle, Hlt. rewrite existsb_reverse in Hlt.
  case_decide as Hend.
  - apply spec_ret.
    assert (Hno : existsb predicate v = false).
    { apply not_true_is_false. rewrite <- Hlt. lia. }
    rewrite Hno. by repeat split.
  - eapply spec_conseq; [eapply removeAt_exact; [done..|lia]| |done].
    intros r s' (-> & Hno & Hone & Hmany). cbn beta.
    rewrite bool_decide_eq_true_2 in * by lia.
    assert (Hex : existsb predicate v = true) by (apply Hlt; lia).
    rewrite Hex. split; [done|]. split; [done|].
    intros _. destruct (decide (length v = 1)); auto.
Qed.


Lemma remove_first_match_length predicate v :
  length (remove_first_match predicate v) + (if existsb predicate v then 1 else 0)
  = length v.
Proof.
  induction v as [|x v IH]; simpl; [done|].
  destruct (predicate x); simpl; lia.
Qed.

Lemma remove_last_match_length predicate v :
  length (remove_last_match predicate v) + (if existsb predicate v then 1 else 0)
  = length v.
Proof.
  unfold remove_last_match. rewrite length_reverse.
  rewrite <- (existsb_reverse predicate v), <- (length_reverse v).
  apply remove_first_match_length.
Qed.

(** * Further properties of the code *)

(** X1. [removeFirst(predicate)] tells whether an element satisfies the
    predicate; if so it removes the first such element and nothing else,
    keeping the order of the others; if not, it leaves the state as it
    was, handle, storages and reference counts. *)
Theorem removeFirst_removes_first_match (predicate : T → bool) s :
  wf s →
  ∃ s', removeFirst predicate s None
          = (Returned (existsb predicate (contents s)), s', None) ∧
        contents s' = remove_first_match predicate (contents s) ∧
        length (contents s') + (if existsb predicate (contents s) then 1 else 0)
          = length (contents s) ∧
        (existsb predicate (contents s) = false → s' = s).
Proof.
  intros Hwf.
  pose proof (removeFirst_spec predicate s Hwf None) as Hc.
  destruct (spec_returns _ _ _ _ (removeFirst_exact predicate s Hwf))
    as (r & s' & Hrun & -> & Hno & _).
  rewrite Hrun in Hc. destruct Hc as [(_ & _ & Hc & _) _].
  exists s'. split; [done|]. split; [done|]. split; [|done].
  rewrite Hc. apply remove_first_match_length.
Qed.

(** X2. [removeLast(predicate)] tells whether an element satisfies the
    predicate; if so it removes the last such element and nothing else,
    keeping the order of the others; if not, it leaves the state as it
    was. *)
Theorem removeLast_removes_last_match (predicate : T → bool) s :
  wf s →
  ∃ s', removeLast predicate s None
          = (Returned (existsb predicate (contents s)), s', None) ∧
        contents s' = remove_last_match predicate (contents s) ∧
        length (contents s') + (if existsb predicate (contents s) then 1 else 0)
          = length (contents s) ∧
        (existsb predicate (contents s) = false → s' = s).
Proof.
  intros Hwf.
  pose proof (removeLast_spec predicate s Hwf None) as Hc.
  destruct (spec_returns _ _ _ _ (removeLast_exact predicate s Hwf))
    as (r & s' & Hrun & -> & Hno & _).
  rewrite Hrun in Hc. destruct Hc as [(_ & _ & Hc & _) _].
  exists s'. split; [done|]. split; [done|]. split; [|done].
  rewrite Hc. apply remove_last_match_length.
Qed.

(** X3. [removeFirst] and [removeLast] are all-or-nothing whether or not
    the container is the sole holder: the predicate runs before anything
    is written, so a call that leaves by an exception leaves the state as
    it was. *)
Theorem remove_one_all_or_nothing (predicate : T → bool) s b e s' b' :
  wf s →
  removeFirst predicate s b = (Thrown e, s', b') ∨
  removeLast predicate s b = (Thrown e, s', b') →
  s' = s.
Proof.
  intros Hwf [Hrun|Hrun].
  - exact (spec_thrown _ _ _ _ _ _ _ _ (removeFirst_exact predicate s Hwf) Hrun).
  - exact (spec_thrown _ _ _ _ _ _ _ _ (removeLast_exact predicate s Hwf) Hrun).
Qed.

(** X4. [remove(predicate)] on a container none of whose elements
    satisfies the predicate returns 0 and leaves the state exactly as it
    was: no storage is written, swapped or released. *)
Theorem remove_without_match_is_noop (predicate : T → bool) s :
  wf s → (∀ x, x ∈ contents s → predicate x = false) →
  remove predicate s None = (Returned 0, s, None).
Proof.
  intros Hwf Hnone.
  destruct (spec_returns _ _ _ _ (remove_exact predicate s Hwf))
    as (r & s' & Hrun & -> & Hno & _).
  assert (Hzero : length (List.filter predicate (contents s)) = 0).
  { apply length_zero_iff_nil.
    destruct (List.filter predicate (contents s)) as [|x w] eqn:Hw; [done|].
    assert (Hx : In x (List.filter predicate (contents s))) by (rewrite Hw; by left).
    apply List.filter_In in Hx as [Hx Hp]. apply list_elem_of_In, Hnone in Hx.
    congruence. }
  rewrite Hzero in *. by rewrite Hrun, (Hno eq_refl).
Qed.

(** X5. [remove(predicate)] by the sole holder works in place: the handle
    and the reference count stay, no storage is allocated, and the storage
    holds the elements that do not satisfy the predicate, also when none
    is left. *)
Theorem remove_by_sole_holder_in_place (predicate : T → bool) s l v :
  wf s → _storage s = Some l → heap s !! l = Some (Shared v 1) →
  remove predicate s None
  = (Returned (length (List.filter predicate v)),
     State (Some l) (<[l := Shared (List.filter (λ x, negb (predicate x)) v) 1]> (heap s))
       (_empty_storage s),
     None).
Proof.
  intros Hwf Hs Hl.
  destruct (spec_returns _ _ _ _ (remove_exact predicate s Hwf))
    as (r & s' & Hrun & -> & Hno & Hsome & _).
  assert (Hc : contents s = v) by (unfold contents; by rewrite Hs, Hl).
  rewrite Hc in *. rewrite Hrun. do 2 f_equal.
  destruct (decide (length (List.filter predicate v) = 0)) as [Hz|Hz].
  - rewrite (Hno Hz). destruct s as [p h e]. cbn in *. subst p.
    assert (List.filter (λ x, negb (predicate x)) v = v) as ->.
    { apply filter_length_eq. pose proof (List.filter_length predicate v). lia. }
    by rewrite insert_id.
  - assert (Hw : written s s' (List.filter (λ x, negb (predicate x)) v)).
    { apply Hsome; [lia|]. left. by exists l, v. }
    unfold written in Hw. rewrite Hs in Hw.
    destruct Hw as (v0 & n0 & Hl0 & Hw). rewrite Hl in Hl0. simplify_eq.
    by rewrite decide_True in Hw.
Qed.

(** X6. When [remove(predicate)] by the sole holder leaves by an
    exception, it has filtered a prefix of the storage and left the rest:
    the handle stays, and the elements that do not satisfy the predicate
    are all still there, in their order. *)
Theorem remove_in_place_failure_keeps_survivors (predicate : T → bool) s b e s' b' :
  wf s → sole_holder s →
  remove predicate s b = (Thrown e, s', b') →
  _storage s' = _storage s ∧
  (∃ k, contents s'
        = List.filter (λ x, negb (predicate x)) (take k (contents s))
          ++ drop k (contents s)) ∧
  List.filter (λ x, negb (predicate x)) (contents s')
  = List.filter (λ x, negb (predicate x)) (contents s).
Proof.
  intros Hwf Hsole Hrun.
  destruct (spec_thrown _ _ _ _ _ _ _ _ (remove_exact predicate s Hwf) Hrun)
    as [_ Hpart].
  destruct (Hpart Hsole) as (k & Hs').
  destruct Hsole as (l & v & Hs & Hl). destruct s as [p h es].
  cbn [_storage heap _empty_storage] in *. subst p s'. cbn [default _storage].
  split; [done|]. set (v0 := contents (State (Some l) h es)).
  erewrite (contents_eq _ _ _ l); [|done|by rewrite lookup_insert_eq].
  split; [by exists k|].
  rewrite List.filter_app.
  assert (Hidem : ∀ w, List.filter (λ x, negb (predicate x))
                         (List.filter (λ x, negb (predicate x)) w)
                       = List.filter (λ x, negb (predicate x)) w).
  { intros w. induction w as [|x w IH]; simpl; [done|].
    destruct (predicate x) eqn:Hx; simpl; [done|]. by rewrite Hx, IH. }
  by rewrite Hidem, <- List.filter_app, take_drop.
Qed.

(** X7. The copy-on-write policy of [push_back], [push_front] and
    [emplace_back]: the sole holder writes in place, keeping the handle
    and allocating nothing; any other container gets a fresh storage with
    the old elements and the new one, of which it is the sole holder,
    while the old storage keeps its elements and loses one holder. *)
Theorem push_copies_unless_sole_holder (t : T) s :
  wf s →
  (∃ s', push_back t s None = (Returned (), s', None) ∧
         written s s' (contents s ++ [t])) ∧
  (∃ s', push_front t s None = (Returned (), s', None) ∧
         written s s' (t :: contents s)) ∧
  (∃ s', emplace_back t s None = (Returned (), s', None) ∧
         written s s' (contents s ++ [t])).
Proof.
  intros Hwf. split; [|split].
  - destruct (spec_returns _ _ _ _ (push_back_exact t s Hwf)) as ([] & s' & ? & ?). eauto.
  - destruct (spec_returns _ _ _ _ (push_front_exact t s Hwf)) as ([] & s' & ? & ?). eauto.
  - destruct (spec_returns _ _ _ _ (push_back_exact t s Hwf)) as ([] & s' & ? & ?). eauto.
Qed.


Lemma release_counts_positive h p :
  counts_positive h → counts_positive (release_heap p h).
Proof.
  intros Hpos l c. destruct p as [l'|]; [|apply Hpos]. unfold release_heap.
  destruct (h !! l') as [c'|] eqn:Hc'; [|apply Hpos].
  case_decide as Hn.
  - destruct (decide (l' = l)) as [->|Hne]; [by rewrite lookup_delete_eq|].
    rewrite lookup_delete_ne by done. apply Hpos.
  - destruct (decide (l' = l)) as [->|Hne].
    + rewrite lookup_insert_eq. intros [= <-]. cbn. lia.
    + rewrite lookup_insert_ne by done. apply Hpos.
Qed.

Lemma insert_counts_positive h l v n :
  counts_positive h → 1 ≤ n → counts_positive (<[l := Shared v n]> h).
Proof.
  intros Hpos Hn l1 c. destruct (decide (l = l1)) as [->|Hne].
  - rewrite lookup_insert_eq. by intros [= <-].
  - rewrite lookup_insert_ne by done. apply Hpos.
Qed.

Lemma cow_step_counts_positive s s' :
  counts_positive (heap s) → cow_step s s' → counts_positive (heap s').
Proof.
  intros Hpos [-> | l1 v1 v' Hs Hl1 -> | l' v' Hl' -> | ->]; [done|..];
    cbn [heap].
  - by apply insert_counts_positive.
  - apply insert_counts_positive; [by apply release_counts_positive|done].
  - by apply release_counts_positive.
Qed.

(** X8. Every mutating call on a well-formed container is memory safe,
    whatever fails inside it: it returns or throws but never dereferences
    a null or dangling handle, it leaves a well-formed state, no storage
    is left allocated with a reference count of zero, and the class-wide
    empty storage is untouched. *)
Theorem mutating_call_is_safe (o : operation) s b :
  wf s → counts_positive (heap s) →
  ∃ r s' b', run o s b = (r, s', b') ∧ r ≠ Undefined ∧
             wf s' ∧ counts_positive (heap s') ∧
             _empty_storage s' = _empty_storage s.
Proof.
  intros Hwf Hpos. pose proof (run_spec o s Hwf b) as Hrun.
  assert (∃ r s1 b1, run o s b = (r, s1, b1) ∧ r ≠ Undefined ∧ cow_step s s1)
    as (r & s1 & b1 & Heq & Hr & Hstep).
  { destruct (run o s b) as [[[a|x|] s1] b1]; [| |done].
    - exists (Returned a), s1, b1. by destruct Hrun as [[? _] _].
    - exists (Thrown x), s1, b1. by destruct Hrun as [[? _] _]. }
  exists r, s1, b1. split; [done|]. split; [done|].
  split; [by eapply cow_step_wf|]. split; [by eapply cow_step_counts_positive|].
  by eapply cow_step_empty_storage.
Qed.

(** The three queries, with what a failure leaves. *)
Lemma exists_spec predicate s :
  wf s →
  spec (exists_ predicate) s
    (λ r s', r = existsb predicate (contents s) ∧ s' = s) (λ s', s' = s).
Proof.
  intros Hwf.
  eapply spec_conseq;
    [apply (spec_query (exists_captured predicate) false (existsb predicate) s Hwf);
       [done|]| |done].
  - intros l v n h e Q E Hl HE HQ. cbn beta in HQ.
    unfold exists_captured. apply spec_bind, spec_field. norm.
    apply spec_bind. eapply spec_std_empty; [look|]. norm.
    destruct v as [|x v']; [by apply spec_ret|].
    apply spec_bind. eapply spec_load; [look|]. norm.
    by apply spec_scan_exists.
  - intros r s' [-> ->]. split; [|done]. by destruct (contents s).
Qed.

Lemma find_first_spec predicate default_value s :
  wf s →
  spec (find_first predicate default_value) s
    (λ r s', r = default default_value (List.find predicate (contents s)) ∧ s' = s)
    (λ s', s' = s).
Proof.
  intros Hwf.
  eapply spec_conseq;
    [apply (spec_query (find_first_captured predicate default_value) default_value
              (λ v, default default_value (List.find predicate v)) s Hwf); [done|]| |done].
  - intros l v n h e Q E Hl HE HQ. cbn beta in HQ.
    unfold find_first_captured. apply spec_bind, spec_field. norm.
    apply spec_bind. eapply spec_std_empty; [look|]. norm.
    destruct v as [|x v']; [by apply spec_ret|].
    apply spec_bind. eapply spec_load; [look|]. norm.
    by apply spec_scan_find.
  - intros r s' [-> ->]. split; [|done]. by destruct (contents s).
Qed.

Lemma find_last_spec predicate default_value s :
  wf s →
  spec (find_last predicate default_value) s
    (λ r s', r = default default_value (find_last_match predicate (contents s)) ∧ s' = s)
    (λ s', s' = s).
Proof.
  intros Hwf.
  eapply spec_conseq;
    [apply (spec_query (find_last_captured predicate default_value) default_value
              (λ v, default default_value (find_last_match predicate v)) s Hwf); [done|]| |done].
  - intros l v n h e Q E Hl HE HQ. cbn beta in HQ.
    unfold find_last_captured. apply spec_bind, spec_field. norm.
    apply spec_bind. eapply spec_std_empty; [look|]. norm.
    destruct v as [|x v'] eqn:Hv; [by apply spec_ret|]. rewrite <- Hv in *.
    apply spec_bind. eapply spec_load; [look|]. norm.
    apply spec_scan_find; [done|]. rewrite find_reverse. by rewrite Hv in *.
  - intros r s' [-> ->]. split; [|done]. by destruct (contents s).
Qed.

(** X9. Called with no writer in between, [exists(predicate)] tells
    whether an element of the container satisfies the predicate, and
    leaves the state as it was, the reference count of the storage too;
    so it does when the predicate throws. *)
Theorem exists_answers_and_restores (predicate : T → bool) s :
  wf s →
  exists_ predicate s None = (Returned (existsb predicate (contents s)), s, None) ∧
  ∀ b e s' b', exists_ predicate s b = (Thrown e, s', b') → s' = s.
Proof.
  intros Hwf. split.
  - destruct (spec_returns _ _ _ _ (exists_spec predicate s Hwf))
      as (r & s' & Hrun & -> & ->). done.
  - intros b e s' b' Hrun.
    exact (spec_thrown _ _ _ _ _ _ _ _ (exists_spec predicate s Hwf) Hrun).
Qed.

(** X10. Called with no writer in between, [find_first] returns the first
    element that satisfies the predicate, and the default when no element
    does; it leaves the state as it was, also when the predicate throws. *)
Theorem find_first_answers_and_restores (predicate : T → bool) (default_value : T) s :
  wf s →
  find_first predicate default_value s None
  = (Returned (default default_value (List.find predicate (contents s))), s, None) ∧
  (existsb predicate (contents s) = false →
   find_first predicate default_value s None = (Returned default_value, s, None)) ∧
  ∀ b e s' b', find_first predicate default_value s b = (Thrown e, s', b') → s' = s.
Proof.
  intros Hwf.
  assert (Hrun : find_first predicate default_value s None
    = (Returned (default default_value (List.find predicate (contents s))), s, None)).
  { destruct (spec_returns _ _ _ _ (find_first_spec predicate default_value s Hwf))
      as (r & s' & Hrun & -> & ->). done. }
  split; [done|]. split.
  - intros Hno. rewrite Hrun.
    destruct (List.find predicate (contents s)) as [x|] eqn:Hx; [|done].
    apply List.find_some in Hx as [Hin Hp].
    assert (existsb predicate (contents s) = true) by (apply existsb_exists; eauto).
    congruence.
  - intros b e s' b' Hthrown.
    exact (spec_thrown _ _ _ _ _ _ _ _ (find_first_spec predicate default_value s Hwf) Hthrown).
Qed.

Lemma find_last_match_None predicate v :
  existsb predicate v = false → find_last_match predicate v = None.
Proof.
  induction v as [|x v IH]; simpl; [done|].
  destruct (predicate x); simpl; [done|]. intros Hno. by rewrite IH.
Qed.

Lemma find_last_match_Some predicate v x :
  find_last_match predicate v = Some x →
  ∃ v1 v2, v = v1 ++ x :: v2 ∧ predicate x = true ∧ existsb predicate v2 = false.
Proof.
  revert x. induction v as [|y v IH]; simpl; [done|]. intros x.
  destruct (find_last_match predicate v) as [z|] eqn:Hz.
  - intros [= ->]. destruct (IH x eq_refl) as (v1 & v2 & -> & Hp & Hno).
    by exists (y :: v1), v2.
  - destruct (predicate y) eqn:Hy; [|done]. intros [= ->].
    exists [], v. repeat split; [done|].
    destruct (existsb predicate v) eqn:Hex; [|done].
    apply existsb_exists in Hex as (w & Hin & Hw).
    clear IH. induction v as [|a v IH]; [done|]. simpl in Hz.
    destruct (find_last_match predicate v) eqn:Hv; [done|].
    destruct (predicate a) eqn:Ha; [done|].
    destruct Hin as [->|Hin]; [congruence|]. by apply IH.
Qed.

(** X11. Called with no writer in between, [find_last] returns the last
    element that satisfies the predicate: no element behind it does; it
    returns the default when no element does, and leaves the state as it
    was, also when the predicate throws. *)
Theorem find_last_answers_and_restores (predicate : T → bool) (default_value : T) s :
  wf s →
  (∃ r, find_last predicate default_value s None = (Returned r, s, None) ∧
        ((existsb predicate (contents s) = false ∧ r = default_value) ∨
         ∃ v1 v2, contents s = v1 ++ r :: v2 ∧ predicate r = true ∧
                  existsb predicate v2 = false)) ∧
  ∀ b e s' b', find_last predicate default_value s b = (Thrown e, s', b') → s' = s.
Proof.
  intros Hwf. split.
  - destruct (spec_returns _ _ _ _ (find_last_spec predicate default_value s Hwf))
      as (r & s' & Hrun & -> & ->).
    eexists. split; [done|].
    destruct (find_last_match predicate (contents s)) as [x|] eqn:Hx.
    + right. by apply find_last_match_Some.
    + left. split; [|done].
      destruct (existsb predicate (contents s)) eqn:Hex; [|done].
      exfalso. clear -Hx Hex. induction (contents s) as [|a v IH]; [done|].
      simpl in *. destruct (find_last_match predicate v); [done|].
      destruct (predicate a); [done|]. by apply IH.
  - intros b e s' b' Hthrown.
    exact (spec_thrown _ _ _ _ _ _ _ _ (find_last_spec predicate default_value s Hwf) Hthrown).
Qed.


(** X12. What [exists] computes once it has captured a storage holding
    [v]: it answers from [v] only when the live field points to a storage
    that is not empty; it answers [false] whenever the live storage is
    empty, and dereferences a null pointer when the live field is null. *)
Theorem exists_captured_follows_live_field (predicate : T → bool) s l v n :
  heap s !! l = Some (Shared v n) →
  (∀ l2 w m, _storage s = Some l2 → heap s !! l2 = Some (Shared w m) →
     exists_captured predicate (Some l) s None
     = (Returned (match w with [] => false | _ => existsb predicate v end), s, None)) ∧
  (_storage s = None →
   exists_captured predicate (Some l) s None = (Undefined, s, None)).
Proof.
  intros Hl. split.
  - intros l2 w m Hs Hl2.
    assert (Hspec : spec (exists_captured predicate (Some l)) s
              (λ r s', r = match w with [] => false | _ => existsb predicate v end ∧ s' = s)
              (λ _, True)).
    { unfold exists_captured. apply spec_bind, spec_field. rewrite Hs.
      apply spec_bind. eapply spec_std_empty; [done|]. cbn [object].
      destruct w as [|y w']; [by apply spec_ret|].
      apply spec_bind. eapply spec_load; [done|]. cbn [object].
      by apply spec_scan_exists. }
    destruct (spec_returns _ _ _ _ Hspec) as (r & s' & Hrun & -> & ->). done.
  - intros Hs. unfold exists_captured, bind, field, std_empty, load, undefined.
    by rewrite Hs.
Qed.

(** ** Assignment *)

Lemma operator_assign_runs _Right s b :
  operator_assign _Right s b
  = (Returned (),
     State _Right
       (release_heap _Right
          (release_heap (_storage s)
             (acquire_heap _Right (acquire_heap _Right (heap s)))))
       (_empty_storage s),
     b).
Proof. by destruct s. Qed.

Lemma assign_heap_self h r v n :
  h !! r = Some (Shared v n) → 1 ≤ n →
  release_heap (Some r)
    (release_heap (Some r) (acquire_heap (Some r) (acquire_heap (Some r) h))) = h.
Proof.
  intros Hr Hn. unfold acquire_heap. rewrite Hr, lookup_insert_eq, insert_insert_eq.
  cbn [object use_count].
  unfold release_heap at 2. rewrite lookup_insert_eq. cbn [object use_count].
  rewrite decide_False by lia. rewrite insert_insert_eq.
  unfold release_heap. rewrite lookup_insert_eq. cbn [object use_count].
  rewrite decide_False by lia. rewrite insert_insert_eq.
  replace (S (S n) - 1 - 1) with n by lia. by apply insert_id.
Qed.

Lemma assign_heap_other h p r v n :
  h !! r = Some (Shared v n) → p ≠ Some r →
  release_heap (Some r)
    (release_heap p (acquire_heap (Some r) (acquire_heap (Some r) h)))
  = <[r := Shared v (S n)]> (release_heap p h).
Proof.
  intros Hr Hne. unfold acquire_heap. rewrite Hr, lookup_insert_eq, insert_insert_eq.
  cbn [object use_count]. rewrite release_heap_insert_ne by done.
  unfold release_heap at 1. rewrite lookup_insert_eq. cbn [object use_count].
  rewrite decide_False by lia. rewrite insert_insert_eq.
  by replace (S (S n) - 1) with (S n) by lia.
Qed.

Lemma release_heap_dom h p : dom (release_heap p h) ⊆ dom h.
Proof.
  intros l Hin. apply elem_of_dom in Hin as [c Hc]. apply elem_of_dom.
  destruct p as [l'|]; [|by eauto]. unfold release_heap in Hc.
  destruct (h !! l') as [c'|] eqn:Hc'; [|by eauto].
  destruct (decide (l' = l)) as [->|Hne]; [by eauto|].
  case_decide; [rewrite lookup_delete_ne in Hc by done|
                rewrite lookup_insert_ne in Hc by done]; eauto.
Qed.

(** X13. [operator=] shares and never copies or fails: after
    [this = _Right], for a right-hand container with a valid handle (this
    container itself included), the container has [_Right]'s handle and
    elements, no storage has been allocated, and every storage held by
    someone besides this container keeps its elements and stays protected
    from in-place writes. *)
Theorem operator_assign_shares (_Right : option positive) s b :
  wf s →
  storage_ok (set_storage _Right s) →
  ∃ s', operator_assign _Right s b = (Returned (), s', b) ∧
        _storage s' = _Right ∧
        contents s' = contents (set_storage _Right s) ∧
        wf s' ∧
        (∀ l v, held_elsewhere s l v → held_elsewhere s' l v) ∧
        dom (heap s') ⊆ dom (heap s).
Proof.
  intros Hwf Hright. rewrite operator_assign_runs. eexists. split; [done|].
  destruct s as [p h e]. cbn [_storage heap _empty_storage].
  destruct _Right as [r|]; [|cbn [acquire_heap release_heap]].
  - destruct (Hright r eq_refl) as ([v n] & Hr & Hn).
    cbn [set_storage _storage heap use_count] in Hr, Hn.
    destruct (decide (p = Some r)) as [->|Hne].
    + rewrite (assign_heap_self h r v n) by (done || lia).
      split; [done|]. split; [done|]. split; [done|]. split; [done|]. by intros l.
    + rewrite (assign_heap_other h p r v n) by done.
      assert (Hkeep : ∀ l w, held_elsewhere (State p h e) l w →
                held_elsewhere (State (Some r) (<[r := Shared v (S n)]> (release_heap p h)) e) l w).
      { intros l w Hheld. destruct (decide (l = r)) as [->|Hlr].
        - destruct Hheld as (m & Hm & _). cbn [heap] in Hm. simplify_eq.
          exists (S n). norm. rewrite lookup_insert_eq. split; [done|].
          rewrite decide_True by done. lia.
        - destruct (held_elsewhere_released (State p h e) l w (Some r) e Hheld)
            as (m & Hm & Hmn); [congruence|].
          exists m. cbn [_storage heap] in *. by rewrite lookup_insert_ne. }
      split; [done|]. split; [|split; [|split; [done|]]].
      * unfold contents, set_storage. norm. by rewrite lookup_insert_eq, Hr.
      * destruct Hwf as [Hok (l0 & He & Hheld)]. split.
        -- intros l [= <-]. norm. rewrite lookup_insert_eq. eexists. split; [done|].
           cbn. lia.
        -- exists l0. split; [done|]. by apply Hkeep.
      * cbn [heap]. intros l Hin. apply elem_of_dom in Hin as [c Hc].
        destruct (decide (r = l)) as [<-|Hrl]; [apply elem_of_dom; eauto|].
        rewrite lookup_insert_ne in Hc by done.
        apply (release_heap_dom h p), elem_of_dom. eauto.
  - assert (Hstep : cow_step (State p h e) (State None (release_heap p h) e))
      by (by apply step_reset).
    split; [done|]. split; [done|]. split; [by eapply cow_step_wf|].
    split; [intros l v Hheld; by eapply cow_step_held|].
    apply release_heap_dom.
Qed.


(** ** Direct access *)

(** X14. [data()] hands out the live storage: on a container with a
    storage it returns that storage and changes nothing, whatever its
    reference count; on a null handle it allocates an empty storage, of
    which the container is the sole holder, and leaves the state as it was
    if the allocation fails. *)
Theorem data_gives_live_storage s :
  wf s →
  (∀ l b, _storage s = Some l → data s b = (Returned (Some l), s, b)) ∧
  (_storage s = None →
   ∃ l', heap s !! l' = None ∧
         data s None
         = (Returned (Some l'),
            State (Some l') (<[l' := Shared [] 1]> (heap s)) (_empty_storage s),
            None)) ∧
  (∀ b e s' b', data s b = (Thrown e, s', b') → s' = s).
Proof.
  intros Hwf. destruct s as [p h e].
  assert (Hspec : spec data (State p h e)
            (λ r s', match p with
                     | Some l => r = Some l ∧ s' = State p h e
                     | None => ∃ l', h !! l' = None ∧ r = Some l' ∧
                                     s' = State (Some l') (<[l' := Shared [] 1]> h) e
                     end)
            (λ s', s' = State p h e)).
  { unfold data. apply spec_bind, spec_field. norm.
    destruct p as [l|]; [by apply spec_ret|].
    apply spec_bind, spec_new_TStorage; [done|]. intros l' Hl'. norm.
    apply spec_bind, spec_scoped, spec_assign_storage. norm.
    rewrite publish by done. apply spec_field. norm. by exists l'. }
  split; [|split].
  - intros l b [= ->]. unfold data, bind, field, ret. done.
  - intros [= ->]. destruct (spec_returns _ _ _ _ Hspec) as (r & s' & Hrun & l' & ? & -> & ->).
    by exists l'.
  - intros b x s' b' Hrun. exact (spec_thrown _ _ _ _ _ _ _ _ Hspec Hrun).
Qed.

(** X15. A write through [data()] bypasses copy-on-write: it overwrites
    the storage in place whatever its reference count, so a view that
    shares the storage reports the new elements. *)
Theorem data_write_reaches_snapshots s l v n (v' : list T) (S : readonly_vector) :
  _storage s = Some l → heap s !! l = Some (Shared v n) →
  readonly_storage S = Some l →
  ∃ s', bind data (λ p, store p v') s None = (Returned (), s', None) ∧
        s' = State (Some l) (<[l := Shared v' n]> (heap s)) (_empty_storage s) ∧
        contents s' = v' ∧
        observe (readonly_vector_size S) s' = Returned (length v') ∧
        ∀ pos, observe (readonly_vector_at S pos) s'
               = match v' !! pos with
                 | Some x => Returned x
                 | None => Thrown out_of_range
                 end.
Proof.
  intros Hs Hl HS. destruct s as [p h e]. cbn [_storage heap _empty_storage] in *. subst p.
  exists (State (Some l) (<[l := Shared v' n]> h) e). split.
  { unfold bind, data, field, ret, store. cbn. by rewrite Hl. }
  split; [done|].
  destruct (view_reads S (State (Some l) (<[l := Shared v' n]> h) e) l v' n None HS)
    as (Hsz & _ & Hat); [by cbn; rewrite lookup_insert_eq|].
  split; [by erewrite contents_eq by (done || by rewrite lookup_insert_eq)|].
  unfold observe. rewrite Hsz. split; [done|]. intros pos. by rewrite Hat.
Qed.

(** ** The read-only view *)

Lemma view_reads_more S s l v n b :
  readonly_storage S = Some l → heap s !! l = Some (Shared v n) →
  (∀ i, readonly_vector_index S i s b
        = (match v !! i with Some x => Returned x | None => Undefined end, s, b)) ∧
  readonly_vector_front S s b
  = (match v with x :: _ => Returned x | [] => Undefined end, s, b) ∧
  readonly_vector_back S s b
  = (match last v with Some x => Returned x | None => Undefined end, s, b).
Proof.
  intros HS Hl.
  unfold readonly_vector_index, readonly_vector_front, readonly_vector_back,
    std_deref, std_front, std_back, load, bind, field, ret, undefined.
  rewrite HS, Hl. cbn [object]. split; [|split].
  - intros i. by destruct (_ !! i).
  - by destruct v.
  - by destruct (last v).
Qed.

(** X16. The accessors of a view agree: [empty()] holds exactly when
    [size()] is 0; within bounds [operator[]] returns what [at] returns;
    out of bounds [operator[]] is undefined where [at] throws; [front()]
    and [back()] are the elements at the first and the last index, and are
    undefined on an empty view. *)
Theorem view_accessors_agree (S : readonly_vector) s l v n pos :
  readonly_storage S = Some l → heap s !! l = Some (Shared v n) →
  (observe (readonly_vector_empty S) s = Returned true
   ↔ observe (readonly_vector_size S) s = Returned 0) ∧
  (pos < length v →
   observe (readonly_vector_index S pos) s = observe (readonly_vector_at S pos) s) ∧
  (length v ≤ pos →
   observe (readonly_vector_index S pos) s = Undefined ∧
   observe (readonly_vector_at S pos) s = Thrown out_of_range) ∧
  observe (readonly_vector_front S) s = observe (readonly_vector_index S 0) s ∧
  observe (readonly_vector_back S) s
  = observe (readonly_vector_index S (length v - 1)) s ∧
  (v = [] → observe (readonly_vector_front S) s = Undefined ∧
            observe (readonly_vector_back S) s = Undefined).
Proof.
  intros HS Hl.
  destruct (view_reads S s l v n None HS Hl) as (Hsz & Hem & Hat).
  destruct (view_reads_more S s l v n None HS Hl) as (Hidx & Hfront & Hback).
  unfold observe. rewrite Hfront, Hback, !Hidx, Hsz, Hem, Hat. cbn [fst].
  split; [|split; [|split; [|split; [|split]]]].
  - destruct v; split; intros [=]; done.
  - intros Hpos. destruct (lookup_lt_is_Some_2 v pos Hpos) as [x Hx]. by rewrite Hx.
  - intros Hpos. by rewrite (lookup_ge_None_2 v pos Hpos).
  - by destruct v.
  - rewrite last_lookup. by replace (pred (length v)) with (length v - 1) by lia.
  - by intros ->.
Qed.

(** ** The snapshot iterator *)

(** X17. On the iterators of one snapshot (sentinels, and the bound
    iterators of one storage with one captured end) [operator==] is
    equality of positions, a sentinel standing at the captured end; so it
    is there an equivalence relation: reflexive, symmetric and
    transitive. *)
Theorem iterator_equality_equivalence (l : positive) (last : Z) (a b c : iterator) :
  of_snapshot l last a → of_snapshot l last b → of_snapshot l last c →
  operator_eq a b = bool_decide (position last a = position last b) ∧
  operator_eq a a = true ∧
  operator_eq a b = operator_eq b a ∧
  (operator_eq a b = true → operator_eq b c = true → operator_eq a c = true).
Proof.
  intros Ha Hb Hc.
  assert (Heq : ∀ x y, of_snapshot l last x → of_snapshot l last y →
            operator_eq x y = bool_decide (position last x = position last y)).
  { intros [sx [bx ox] ex] [sy [by_ oy] ey] Hx Hy.
    unfold of_snapshot, operator_eq, position in *.
    cbn [iterator_storage _it _end base offset] in *.
    destruct Hx as [->|(-> & -> & ->)], Hy as [->|(-> & -> & ->)].
    - by rewrite bool_decide_eq_true_2.
    - apply bool_decide_ext. split; congruence.
    - apply bool_decide_ext. split; congruence.
    - apply bool_decide_ext. split; congruence. }
  rewrite !Heq by done. split; [done|]. split; [by apply bool_decide_eq_true|].
  split; [apply bool_decide_ext; split; congruence|].
  rewrite !bool_decide_eq_true. congruence.
Qed.


Lemma range_for_loop_visits s l v :
  held_elsewhere s l v →
  ∀ fuel k b, k ≤ length v → length v - k < fuel →
    range_for_loop fuel
      (advance k (Iterator (Some l) (ConstIterator (Some l) 0)
                    (ConstIterator (Some l) (Z.of_nat (length v)))))
      iterator_default s b
    = (Returned (Some (drop k v)), s, b).
Proof.
  intros Hheld fuel. induction fuel as [|fuel IH]; intros k b Hk Hfuel; [lia|].
  cbn [range_for_loop].
  destruct (iterator_observes s l v k b Hheld) as [Hne Hderef]. rewrite Hne.
  destruct (decide (k = length v)) as [->|Hlt].
  - rewrite bool_decide_eq_false_2 by (by intros ?). by rewrite drop_all.
  - rewrite bool_decide_eq_true_2 by done.
    destruct (lookup_lt_is_Some_2 v k) as [x Hx]; [lia|].
    unfold bind at 1. rewrite Hderef, Hx. unfold bind.
    change (operator_pre_inc (advance k ?it)) with (advance (S k) it).
    rewrite (IH (S k)) by lia. unfold ret. cbn [fmap option_fmap option_map].
    by rewrite (drop_S v x k Hx).
Qed.

Lemma begin_runs l v n h e b :
  h !! l = Some (Shared v n) →
  begin (State (Some l) h e) b
  = (Returned (Iterator (Some l) (ConstIterator (Some l) 0)
                 (ConstIterator (Some l) (Z.of_nat (length v)))),
     State (Some l) (<[l := Shared v (S n)]> h) e, b).
Proof.
  intros Hl. unfold begin, std_size, load, bind, field, acquire, ret, acquire_heap.
  cbn [_storage heap]. rewrite Hl. cbn [heap object use_count]. by rewrite Hl.
Qed.

(** X18. A range-for loop over the container visits its elements once
    each, in order, and ends: with enough fuel the loop returns the
    element sequence, and when the iterators are destroyed the state is as
    before the loop, the reference count of the storage too. *)
Theorem range_for_visits_contents s fuel :
  wf s → length (contents s) < fuel →
  range_for fuel s None = (Returned (Some (contents s)), s, None).
Proof.
  intros [Hok _] Hfuel. destruct s as [p h e]. destruct p as [l|].
  - destruct (storage_ok_lookup _ _ _ Hok) as (v & n & Hl & Hn).
    erewrite contents_eq in * by done.
    unfold range_for, bind. rewrite (begin_runs l v n h e None Hl).
    unfold end_, ret, scoped. cbn [iterator_storage].
    assert (Hheld : held_elsewhere (State (Some l) (<[l := Shared v (S n)]> h) e) l v).
    { exists (S n). norm. rewrite lookup_insert_eq. split; [done|]. case_decide; lia. }
    pose proof (range_for_loop_visits _ l v Hheld fuel 0 None) as Hloop.
    cbn [advance] in Hloop. rewrite Hloop by lia. norm.
    unfold release_heap. rewrite lookup_insert_eq. cbn [object use_count].
    rewrite decide_False by lia. rewrite insert_insert_eq, drop_0.
    replace (S n - 1) with n by lia. by rewrite insert_id.
  - destruct fuel as [|fuel]; [simpl in Hfuel; lia|]. done.
Qed.

(** X19. [begin() == end()] exactly when the container has no element,
    whether its handle is null or points to an empty storage. *)
Theorem begin_equals_end_iff_empty s :
  wf s →
  ∃ it s', begin s None = (Returned it, s', None) ∧
           end_ s' None = (Returned iterator_default, s', None) ∧
           (operator_eq it iterator_default = true ↔ contents s = []).
Proof.
  intros Hwf. destruct (_storage s) as [l|] eqn:Hs.
  - destruct (begin_captures s None l Hwf Hs) as (s' & Hb & _ & _ & _).
    eexists _, s'. split; [done|]. split; [done|].
    unfold operator_eq. cbn. rewrite bool_decide_eq_true. split.
    + intros [= Hlen]. apply length_zero_iff_nil. lia.
    + by intros ->.
  - exists iterator_default, s. split; [by apply begin_null|]. split; [done|].
    split; [|done]. intros _. unfold contents. by rewrite Hs.
Qed.

Lemma existsb_filter_negb (predicate : T → bool) v :
  existsb predicate (List.filter (λ x, negb (predicate x)) v) = false.
Proof.
  induction v as [|x v IH]; simpl; [done|].
  destruct (predicate x) eqn:Hx; simpl; [done|]. by rewrite Hx.
Qed.

Lemma filter_filter_negb (predicate : T → bool) v :
  List.filter predicate (List.filter (λ x, negb (predicate x)) v) = [].
Proof.
  induction v as [|x v IH]; simpl; [done|].
  destruct (predicate x) eqn:Hx; simpl; [done|]. by rewrite Hx.
Qed.

(** X20. After [remove(predicate)] no element satisfies the predicate:
    [exists(predicate)] answers [false], and a second [remove(predicate)]
    returns 0 and changes nothing. *)
Theorem remove_then_nothing_matches (predicate : T → bool) s :
  wf s →
  ∃ n s1, remove predicate s None = (Returned n, s1, None) ∧
          exists_ predicate s1 None = (Returned false, s1, None) ∧
          remove predicate s1 None = (Returned 0, s1, None).
Proof.
  intros Hwf.
  destruct (spec_returns _ _ _ _ (remove_spec predicate s Hwf))
    as (n & s1 & Hrun & Hstep & _ & Hc & _).
  assert (Hwf1 : wf s1) by (by eapply cow_step_wf).
  exists n, s1. split; [done|].
  destruct (spec_returns _ _ _ _ (exists_spec predicate s1 Hwf1))
    as (r & s2 & Hex & -> & ->).
  destruct (spec_returns _ _ _ _ (remove_exact predicate s1 Hwf1))
    as (m & s3 & Hrun2 & -> & Hno & _).
  assert (Hzero : length (List.filter predicate (contents s1)) = 0).
  { by rewrite Hc, filter_filter_negb. }
  rewrite (Hno Hzero), Hzero in Hrun2.
  rewrite Hex, Hrun2, Hc, existsb_filter_negb. done.
Qed.

(** X21. What is pushed is what a view then reads at that end: after
    [push_back(t)] a view has one element more and [back()] is [t]; after
    [push_front(t)] a view has one element more and [front()] is [t]. *)
Theorem push_then_view_reads_it (t : T) s :
  wf s →
  (∃ s1 S s2,
     push_back t s None = (Returned (), s1, None) ∧
     read_only_copy s1 None = (Returned S, s2, None) ∧
     observe (readonly_vector_size S) s2 = Returned (Datatypes.S (length (contents s))) ∧
     observe (readonly_vector_back S) s2 = Returned t) ∧
  (∃ s1 S s2,
     push_front t s None = (Returned (), s1, None) ∧
     read_only_copy s1 None = (Returned S, s2, None) ∧
     observe (readonly_vector_size S) s2 = Returned (Datatypes.S (length (contents s))) ∧
     observe (readonly_vector_front S) s2 = Returned t).
Proof.
  intros Hwf. split.
  - destruct (spec_returns _ _ _ _ (push_back_spec t s Hwf)) as ([] & s1 & Hrun & Hstep & Hc).
    assert (Hwf1 : wf s1) by (by eapply cow_step_wf).
    destruct (read_only_copy_captures s1 None Hwf1) as (l & s2 & Hcopy & _ & (n & Hl & _) & _).
    exists s1, (Readonly (Some l)), s2. split; [done|]. split; [done|].
    destruct (view_reads (Readonly (Some l)) s2 l _ n None eq_refl Hl) as (Hsz & _ & _).
    destruct (view_reads_more (Readonly (Some l)) s2 l _ n None eq_refl Hl) as (_ & _ & Hback).
    unfold observe. rewrite Hsz, Hback, Hc, last_snoc, length_app. cbn.
    split; [f_equal; lia|done].
  - destruct (spec_returns _ _ _ _ (push_front_spec t s Hwf)) as ([] & s1 & Hrun & Hstep & Hc).
    assert (Hwf1 : wf s1) by (by eapply cow_step_wf).
    destruct (read_only_copy_captures s1 None Hwf1) as (l & s2 & Hcopy & _ & (n & Hl & _) & _).
    exists s1, (Readonly (Some l)), s2. split; [done|]. split; [done|].
    destruct (view_reads (Readonly (Some l)) s2 l _ n None eq_refl Hl) as (Hsz & _ & _).
    destruct (view_reads_more (Readonly (Some l)) s2 l _ n None eq_refl Hl) as (_ & Hfront & _).
    unfold observe. by rewrite Hsz, Hfront, Hc.
Qed.


(** X22. Emptying the container resets the handle to null where the code
    looks for it: [removeFirst] and [removeLast] that remove the only
    element, sole holder or not, and [remove] that removes every element
    of a storage it is not the sole holder of. *)
Theorem emptying_resets_handle (predicate : T → bool) s :
  wf s →
  (length (contents s) = 1 → existsb predicate (contents s) = true →
   removeFirst predicate s None
   = (Returned true,
      State None (release_heap (_storage s) (heap s)) (_empty_storage s), None) ∧
   removeLast predicate s None
   = (Returned true,
      State None (release_heap (_storage s) (heap s)) (_empty_storage s), None)) ∧
  (¬ sole_holder s → contents s ≠ [] → (∀ x, x ∈ contents s → predicate x = true) →
   remove predicate s None
   = (Returned (length (contents s)),
      State None (release_heap (_storage s) (heap s)) (_empty_storage s), None)).
Proof.
  intros Hwf. split.
  - intros Hone Hex. split.
    + destruct (spec_returns _ _ _ _ (removeFirst_exact predicate s Hwf))
        as (r & s' & Hrun & -> & _ & Hrem).
      rewrite Hex in *. specialize (Hrem eq_refl). unfold one_removed in Hrem.
      rewrite decide_True in Hrem by done. by rewrite Hrun, Hrem.
    + destruct (spec_returns _ _ _ _ (removeLast_exact predicate s Hwf))
        as (r & s' & Hrun & -> & _ & Hrem).
      rewrite Hex in *. specialize (Hrem eq_refl). unfold one_removed in Hrem.
      rewrite decide_True in Hrem by done. by rewrite Hrun, Hrem.
  - intros Hshared Hne Hall.
    destruct (spec_returns _ _ _ _ (remove_exact predicate s Hwf))
      as (r & s' & Hrun & -> & _ & _ & Hreset).
    assert (Hnone : List.filter (λ x, negb (predicate x)) (contents s) = []).
    { destruct (List.filter (λ x, negb (predicate x)) (contents s)) as [|x w] eqn:Hw;
        [done|].
      assert (Hx : In x (List.filter (λ x, negb (predicate x)) (contents s)))
        by (rewrite Hw; by left).
      apply List.filter_In in Hx as [Hx Hp]. apply list_elem_of_In, Hall in Hx.
      by rewrite Hx in Hp. }
    pose proof (List.filter_length predicate (contents s)) as Hsum.
    rewrite Hnone in Hsum. cbn [length] in Hsum. rewrite Nat.add_0_r in Hsum.
    rewrite Hsum in *. rewrite Hrun. do 2 f_equal. apply Hreset; [|done..].
    destruct (contents s); [done|simpl; lia].
Qed.

End more_reasoning.

(** * Further properties, on concrete containers *)

Lemma example_counts_positive (v : list nat) n :
  1 ≤ n →
  counts_positive ({[ 1%positive := Shared [] 1; 2%positive := Shared v n ]}
                     : gmap positive (@shared nat)).
Proof.
  intros Hn. apply insert_counts_positive; [|done].
  apply insert_counts_positive; [|done]. intros l c. by rewrite lookup_empty.
Qed.

Lemma removeFirst_removes_first_match_witness :
  wf shared_pair ∧
  ∃ s', removeFirst is_2_or_3 shared_pair None = (Returned true, s', None) ∧
        contents s' = [1].
Proof.
  assert (Hwf : wf shared_pair) by (apply example_wf; lia).
  split; [exact Hwf|].
  destruct (removeFirst_removes_first_match is_2_or_3 shared_pair Hwf)
    as (s' & Hrun & Hc & _).
  exists s'. split; [exact Hrun|exact Hc].
Defined.

Lemma removeLast_removes_last_match_witness :
  wf two_elements ∧
  ∃ s', removeLast (λ _, true) two_elements None = (Returned true, s', None) ∧
        contents s' = [1].
Proof.
  assert (Hwf : wf two_elements) by (apply example_wf; lia).
  split; [exact Hwf|].
  destruct (removeLast_removes_last_match (λ _, true) two_elements Hwf)
    as (s' & Hrun & Hc & _).
  exists s'. split; [exact Hrun|exact Hc].
Defined.

Lemma remove_one_all_or_nothing_witness :
  wf two_elements ∧
  ∃ s' b',
    removeFirst is_2 two_elements (Some 1) = (Thrown predicate_failure, s', b') ∧
    s' = two_elements.
Proof.
  assert (Hwf : wf two_elements) by (apply example_wf; lia).
  split; [exact Hwf|].
  exists (removeFirst is_2 two_elements (Some 1)).1.2,
         (removeFirst is_2 two_elements (Some 1)).2.
  split; [vm_compute; reflexivity|].
  apply (remove_one_all_or_nothing is_2 two_elements (Some 1) predicate_failure _
           (removeFirst is_2 two_elements (Some 1)).2 Hwf).
  left. vm_compute. reflexivity.
Defined.

Lemma remove_without_match_is_noop_witness :
  wf shared_pair ∧ (∀ x, x ∈ contents shared_pair → is_7 x = false) ∧
  remove is_7 shared_pair None = (Returned 0, shared_pair, None).
Proof.
  assert (Hwf : wf shared_pair) by (apply example_wf; lia).
  assert (Hnone : ∀ x, x ∈ contents shared_pair → is_7 x = false).
  { intros x Hx. change (contents shared_pair) with [1; 2] in Hx.
    apply list_elem_of_In in Hx. destruct Hx as [<-|[<-|[]]]; reflexivity. }
  split; [exact Hwf|]. split; [exact Hnone|].
  exact (remove_without_match_is_noop is_7 shared_pair Hwf Hnone).
Defined.

Lemma remove_by_sole_holder_in_place_witness :
  wf one_element ∧ _storage one_element = Some 2%positive ∧
  heap one_element !! 2%positive = Some (Shared [7] 1) ∧
  ∃ s', remove is_7 one_element None = (Returned 1, s', None) ∧
        _storage s' = Some 2%positive ∧ contents s' = [].
Proof.
  assert (Hwf : wf one_element) by (apply example_wf; lia).
  split; [exact Hwf|]. split; [reflexivity|]. split; [reflexivity|].
  eexists. split.
  - exact (remove_by_sole_holder_in_place is_7 one_element 2%positive [7] Hwf
             eq_refl eq_refl).
  - split; reflexivity.
Defined.

Lemma remove_in_place_failure_keeps_survivors_witness :
  wf two_elements ∧ sole_holder two_elements ∧
  ∃ s' b',
    remove is_1 two_elements (Some 1) = (Thrown predicate_failure, s', b') ∧
    contents s' = [2] ∧
    List.filter (λ x, negb (is_1 x)) (contents s') = [2].
Proof.
  assert (Hwf : wf two_elements) by (apply example_wf; lia).
  assert (Hsole : sole_holder two_elements) by (by exists 2%positive, [1; 2]).
  split; [exact Hwf|]. split; [exact Hsole|].
  exists (remove is_1 two_elements (Some 1)).1.2, (remove is_1 two_elements (Some 1)).2.
  split; [vm_compute; reflexivity|]. split; [vm_compute; reflexivity|].
  exact (proj2 (proj2 (remove_in_place_failure_keeps_survivors is_1 two_elements (Some 1)
           predicate_failure _ (remove is_1 two_elements (Some 1)).2 Hwf Hsole
           ltac:(vm_compute; reflexivity)))).
Defined.

Lemma push_copies_unless_sole_holder_witness :
  wf shared_pair ∧
  ∃ s', push_back 3 shared_pair None = (Returned (), s', None) ∧
        written shared_pair s' [1; 2; 3].
Proof.
  assert (Hwf : wf shared_pair) by (apply example_wf; lia).
  split; [exact Hwf|].
  exact (proj1 (push_copies_unless_sole_holder 3 shared_pair Hwf)).
Defined.

Lemma mutating_call_is_safe_witness :
  wf shared_pair ∧ counts_positive (heap shared_pair) ∧
  ∃ r s' b', run (op_push_front 3) shared_pair (Some 2) = (r, s', b') ∧
             r ≠ Undefined ∧ wf s' ∧ counts_positive (heap s') ∧
             _empty_storage s' = Some 1%positive.
Proof.
  assert (Hwf : wf shared_pair) by (apply example_wf; lia).
  assert (Hpos : counts_positive (heap shared_pair))
    by (apply example_counts_positive; lia).
  split; [exact Hwf|]. split; [exact Hpos|].
  exact (mutating_call_is_safe (op_push_front 3) shared_pair (Some 2) Hwf Hpos).
Defined.

Lemma exists_answers_and_restores_witness :
  wf shared_pair ∧
  exists_ is_2 shared_pair None = (Returned true, shared_pair, None).
Proof.
  assert (Hwf : wf shared_pair) by (apply example_wf; lia).
  split; [exact Hwf|].
  exact (proj1 (exists_answers_and_restores is_2 shared_pair Hwf)).
Defined.

Lemma find_first_answers_and_restores_witness :
  wf two_elements ∧
  find_first is_2_or_3 0 two_elements None = (Returned 2, two_elements, None).
Proof.
  assert (Hwf : wf two_elements) by (apply example_wf; lia).
  split; [exact Hwf|].
  exact (proj1 (find_first_answers_and_restores is_2_or_3 0 two_elements Hwf)).
Defined.

Lemma find_last_answers_and_restores_witness :
  wf two_elements ∧
  ∃ r, find_last (λ _, true) 0 two_elements None = (Returned r, two_elements, None).
Proof.
  assert (Hwf : wf two_elements) by (apply example_wf; lia).
  split; [exact Hwf|].
  destruct (proj1 (find_last_answers_and_restores (λ _, true) 0 two_elements Hwf))
    as (r & Hrun & _).
  exists r. exact Hrun.
Defined.

Lemma exists_captured_follows_live_field_witness :
  heap shared_one !! 2%positive = Some (Shared [7] 2) ∧
  exists_captured is_7 (Some 2%positive) shared_one None
  = (Returned true, shared_one, None).
Proof.
  split; [reflexivity|].
  exact (proj1 (exists_captured_follows_live_field is_7 shared_one 2%positive [7] 2
                  eq_refl) 2%positive [7] 2 eq_refl eq_refl).
Defined.

Lemma operator_assign_shares_witness :
  wf (set_storage None shared_pair) ∧
  storage_ok (set_storage (Some 2%positive) (set_storage None shared_pair)) ∧
  ∃ s', operator_assign (Some 2%positive) (set_storage None shared_pair) None
          = (Returned (), s', None) ∧
        _storage s' = Some 2%positive ∧
        contents s' = [1; 2].
Proof.
  assert (Hwf : wf (set_storage None shared_pair)).
  { split; [by intros l [=]|]. exists 1%positive. split; [reflexivity|].
    exists 1. split; [reflexivity|].
    destruct (decide _) as [[=]|_]. lia. }
  assert (Hright : storage_ok (set_storage (Some 2%positive)
                                 (set_storage None shared_pair))).
  { intros r [= <-]. exists (Shared [1; 2] 2). split; [reflexivity|]. simpl. lia. }
  split; [exact Hwf|]. split; [exact Hright|].
  destruct (operator_assign_shares (Some 2%positive) (set_storage None shared_pair) None
              Hwf Hright) as (s' & Hrun & Hs & Hc & _).
  exists s'. split; [exact Hrun|]. split; [exact Hs|exact Hc].
Defined.

Lemma data_gives_live_storage_witness :
  wf shared_pair ∧
  data shared_pair None = (Returned (Some 2%positive), shared_pair, None).
Proof.
  assert (Hwf : wf shared_pair) by (apply example_wf; lia).
  split; [exact Hwf|].
  exact (proj1 (data_gives_live_storage shared_pair Hwf) 2%positive None eq_refl).
Defined.

Lemma data_write_reaches_snapshots_witness :
  _storage shared_pair = Some 2%positive ∧
  heap shared_pair !! 2%positive = Some (Shared [1; 2] 2) ∧
  readonly_storage (Readonly (Some 2%positive)) = Some 2%positive ∧
  ∃ s', bind data (λ p, store p [5; 2; 9]) shared_pair None = (Returned (), s', None) ∧
        observe (readonly_vector_size (Readonly (Some 2%positive))) s' = Returned 3.
Proof.
  split; [reflexivity|]. split; [reflexivity|]. split; [reflexivity|].
  destruct (data_write_reaches_snapshots shared_pair 2%positive [1; 2] 2 [5; 2; 9]
              (Readonly (Some 2%positive)) eq_refl eq_refl eq_refl)
    as (s' & Hrun & _ & _ & Hsz & _).
  exists s'. split; [exact Hrun|exact Hsz].
Defined.

Lemma view_accessors_agree_witness :
  readonly_storage (Readonly (Some 2%positive)) = Some 2%positive ∧
  heap two_elements !! 2%positive = Some (Shared [1; 2] 1) ∧
  observe (readonly_vector_index (Readonly (Some 2%positive)) 1) two_elements
  = observe (readonly_vector_at (Readonly (Some 2%positive)) 1) two_elements ∧
  observe (readonly_vector_back (Readonly (Some 2%positive))) two_elements
  = observe (readonly_vector_index (Readonly (Some 2%positive)) 1) two_elements.
Proof.
  split; [reflexivity|]. split; [reflexivity|].
  destruct (view_accessors_agree (Readonly (Some 2%positive)) two_elements 2%positive
              [1; 2] 1 1 eq_refl eq_refl) as (_ & Hidx & _ & _ & Hback & _).
  split; [apply Hidx; simpl; lia|exact Hback].
Defined.

Lemma iterator_equality_equivalence_witness :
  of_snapshot 2%positive 2 (advance 2 pair_begin) ∧
  of_snapshot 2%positive 2 iterator_default ∧
  of_snapshot 2%positive 2 pair_begin ∧
  operator_eq (advance 2 pair_begin) iterator_default = true ∧
  operator_eq pair_begin iterator_default = false.
Proof.
  assert (Ha : of_snapshot 2%positive 2 (advance 2 pair_begin)) by (by right).
  assert (Hb : of_snapshot 2%positive 2 iterator_default) by (by left).
  assert (Hc : of_snapshot 2%positive 2 pair_begin) by (by right).
  split; [exact Ha|]. split; [exact Hb|]. split; [exact Hc|].
  split.
  - exact (proj1 (iterator_equality_equivalence 2%positive 2
                    (advance 2 pair_begin) iterator_default pair_begin Ha Hb Hc)).
  - exact (proj1 (iterator_equality_equivalence 2%positive 2
                    pair_begin iterator_default pair_begin Hc Hb Hc)).
Defined.

Lemma range_for_visits_contents_witness :
  wf shared_pair ∧ length (contents shared_pair) < 3 ∧
  range_for 3 shared_pair None = (Returned (Some [1; 2]), shared_pair, None).
Proof.
  assert (Hwf : wf shared_pair) by (apply example_wf; lia).
  assert (Hfuel : length (contents shared_pair) < 3) by (vm_compute; lia).
  split; [exact Hwf|]. split; [exact Hfuel|].
  exact (range_for_visits_contents shared_pair 3 Hwf Hfuel).
Defined.

Lemma begin_equals_end_iff_empty_witness :
  wf two_elements ∧
  ∃ it s', begin two_elements None = (Returned it, s', None) ∧
           (operator_eq it iterator_default = true ↔ [1; 2] = ([] : list nat)).
Proof.
  assert (Hwf : wf two_elements) by (apply example_wf; lia).
  split; [exact Hwf|].
  destruct (begin_equals_end_iff_empty two_elements Hwf) as (it & s' & Hb & _ & Hiff).
  exists it, s'. split; [exact Hb|exact Hiff].
Defined.

Lemma remove_then_nothing_matches_witness :
  wf shared_pair ∧
  ∃ n s1, remove is_2_or_3 shared_pair None = (Returned n, s1, None) ∧
          exists_ is_2_or_3 s1 None = (Returned false, s1, None) ∧
          remove is_2_or_3 s1 None = (Returned 0, s1, None).
Proof.
  assert (Hwf : wf shared_pair) by (apply example_wf; lia).
  split; [exact Hwf|].
  exact (remove_then_nothing_matches is_2_or_3 shared_pair Hwf).
Defined.

Lemma push_then_view_reads_it_witness :
  wf shared_pair ∧
  ∃ s1 S s2,
    push_back 3 shared_pair None = (Returned (), s1, None) ∧
    read_only_copy s1 None = (Returned S, s2, None) ∧
    observe (readonly_vector_size S) s2 = Returned 3 ∧
    observe (readonly_vector_back S) s2 = Returned 3.
Proof.
  assert (Hwf : wf shared_pair) by (apply example_wf; lia).
  split; [exact Hwf|].
  exact (proj1 (push_then_view_reads_it 3 shared_pair Hwf)).
Defined.

Lemma emptying_resets_handle_witness :
  wf shared_one ∧
  removeFirst is_7 shared_one None
  = (Returned true,
     State None {[ 1%positive := Shared [] 1; 2%positive := Shared [7] 1 ]}
       (Some 1%positive),
     None).
Proof.
  assert (Hwf : wf shared_one) by (apply example_wf; lia).
  split; [exact Hwf|].
  exact (proj1 (proj1 (emptying_resets_handle is_7 shared_one Hwf) eq_refl eq_refl)).
Defined.

End cow.
